(** * The EVM operand stack, the push-data bitmap and the batched-call API

    A shallow embedding of three pieces of the go-ethereum fork:

    - [core/vm/stack.go]: the operand stack of 256-bit words with its
      fixed-arity pop, pop-and-peek, swap and dup primitives;
    - [core/vm/analysis.go], as exercised by [core/vm/analysis_test.go]:
      the bit vector that marks PUSH immediates;
    - [internal/ethapi/api_ext.go]: [Multicall] and [DoMulticall].

    Go panics (index or slice bound out of range) are modelled by [None]
    in the option monad; errors returned as values are modelled by a sum. *)

From Stdlib Require Import ZArith List Lia Bool String.
From stdpp Require Import base numbers option list.
Import ListNotations.

Local Open Scope Z_scope.

(** ** Go slices of an [int]-indexed backing array *)

Section GoSlice.
Context {A : Type}.

(** [len(s)], a Go [int]. *)
Definition glen (s : list A) : Z := Z.of_nat (length s).

(** [s[i]]: the run-time check panics unless [0 <= i < len(s)]. *)
Definition gidx (s : list A) (i : Z) : option A :=
  if decide (0 <= i) then s !! Z.to_nat i else None.

(** [s[:j]]: panics unless [0 <= j <= len(s)].  (Go allows [j] up to the
    capacity; the stack only ever shrinks by this expression.) *)
Definition gupto (s : list A) (j : Z) : option (list A) :=
  if decide (0 <= j <= glen s) then Some (take (Z.to_nat j) s) else None.

(** [&s[i]]: a pointer to slot [i] of the backing array, bounds-checked
    like [s[i]].  A pointer is the slot's index. *)
Definition gaddr (s : list A) (i : Z) : option nat :=
  if decide (0 <= i < glen s) then Some (Z.to_nat i) else None.

(** [s[i] = v]: panics like [s[i]]. *)
Definition gstore (s : list A) (i : Z) (v : A) : option (list A) :=
  if decide (0 <= i < glen s) then Some (<[Z.to_nat i := v]> s) else None.
End GoSlice.

(** ** core/vm/stack.go *)

Module Stack.

(** [uint256.Int]: the stack copies these values and never computes on
    them. *)
Definition uint256 : Type := Z.

(** [type Stack struct { data []uint256.Int }] *)
Record Stack : Type := mkStack { data : list uint256 }.

(** A [*uint256.Int] into [st.data]. *)
Definition ptr : Type := nat.

Definition load (st : Stack) (p : ptr) : option uint256 := data st !! p.
Definition store (st : Stack) (p : ptr) (v : uint256) : Stack :=
  mkStack (<[p := v]> (data st)).

Definition len (st : Stack) : Z := glen (data st).

(** [st.data = append(st.data, *d)] *)
Definition push (d : uint256) (st : Stack) : Stack :=
  mkStack (data st ++ [d]).

Definition pop (st : Stack) : option (uint256 * Stack) :=
  ret ← gidx (data st) (len st - 1);
  d ← gupto (data st) (len st - 1);
  Some (ret, mkStack d).

Definition pop2 (st : Stack) : option ((uint256 * uint256) * Stack) :=
  pop1 ← gidx (data st) (len st - 2);
  pop0 ← gidx (data st) (len st - 1);
  d ← gupto (data st) (len st - 2);
  Some ((pop0, pop1), mkStack d).

Definition pop3 (st : Stack)
  : option ((uint256 * uint256 * uint256) * Stack) :=
  pop2 ← gidx (data st) (len st - 3);
  pop1 ← gidx (data st) (len st - 2);
  pop0 ← gidx (data st) (len st - 1);
  d ← gupto (data st) (len st - 3);
  Some ((pop0, pop1, pop2), mkStack d).

Definition pop4 (st : Stack)
  : option ((uint256 * uint256 * uint256 * uint256) * Stack) :=
  pop3 ← gidx (data st) (len st - 4);
  pop2 ← gidx (data st) (len st - 3);
  pop1 ← gidx (data st) (len st - 2);
  pop0 ← gidx (data st) (len st - 1);
  d ← gupto (data st) (len st - 4);
  Some ((pop0, pop1, pop2, pop3), mkStack d).

Definition popPeek (st : Stack) : option ((uint256 * ptr) * Stack) :=
  peek ← gaddr (data st) (len st - 2);
  pop ← gidx (data st) (len st - 1);
  d ← gupto (data st) (len st - 1);
  Some ((pop, peek), mkStack d).

Definition pop2Peek (st : Stack)
  : option ((uint256 * uint256 * ptr) * Stack) :=
  peek ← gaddr (data st) (len st - 3);
  pop1 ← gidx (data st) (len st - 2);
  pop0 ← gidx (data st) (len st - 1);
  d ← gupto (data st) (len st - 2);
  Some ((pop0, pop1, peek), mkStack d).

Definition pop3Peek (st : Stack)
  : option ((uint256 * uint256 * uint256 * ptr) * Stack) :=
  peek ← gaddr (data st) (len st - 4);
  pop2 ← gidx (data st) (len st - 3);
  pop1 ← gidx (data st) (len st - 2);
  pop0 ← gidx (data st) (len st - 1);
  d ← gupto (data st) (len st - 3);
  Some ((pop0, pop1, pop2, peek), mkStack d).

Definition pop5Peek (st : Stack)
  : option ((uint256 * uint256 * uint256 * uint256 * uint256 * ptr) * Stack) :=
  peek ← gaddr (data st) (len st - 6);
  pop4 ← gidx (data st) (len st - 5);
  pop3 ← gidx (data st) (len st - 4);
  pop2 ← gidx (data st) (len st - 3);
  pop1 ← gidx (data st) (len st - 2);
  pop0 ← gidx (data st) (len st - 1);
  d ← gupto (data st) (len st - 5);
  Some ((pop0, pop1, pop2, pop3, pop4, peek), mkStack d).

Definition pop6Peek (st : Stack)
  : option ((uint256 * uint256 * uint256 * uint256 * uint256 * uint256 * ptr)
            * Stack) :=
  peek ← gaddr (data st) (len st - 7);
  pop5 ← gidx (data st) (len st - 6);
  pop4 ← gidx (data st) (len st - 5);
  pop3 ← gidx (data st) (len st - 4);
  pop2 ← gidx (data st) (len st - 3);
  pop1 ← gidx (data st) (len st - 2);
  pop0 ← gidx (data st) (len st - 1);
  d ← gupto (data st) (len st - 6);
  Some ((pop0, pop1, pop2, pop3, pop4, pop5, peek), mkStack d).

(** The shared body of [swap1] .. [swap16]:
    [tmp := st.data[st.len()-(n+1):]; tmp[0], tmp[n] = tmp[n], tmp[0]].
    [tmp] aliases [st.data] from slot [base] on, so [tmp[i]] is slot
    [base + i]; both right-hand sides are read before either slot is
    written. *)
Definition swapBody (n : Z) (st : Stack) : option Stack :=
  let base := len st - (n + 1) in
  if decide (0 <= base <= len st) then
    y ← gidx (data st) (base + n);
    x ← gidx (data st) (base + 0);
    d ← gstore (data st) (base + 0) y;
    d ← gstore d (base + n) x;
    Some (mkStack d)
  else None.

Definition swap1 := swapBody 1.
Definition swap2 := swapBody 2.
Definition swap3 := swapBody 3.
Definition swap4 := swapBody 4.
Definition swap5 := swapBody 5.
Definition swap6 := swapBody 6.
Definition swap7 := swapBody 7.
Definition swap8 := swapBody 8.
Definition swap9 := swapBody 9.
Definition swap10 := swapBody 10.
Definition swap11 := swapBody 11.
Definition swap12 := swapBody 12.
Definition swap13 := swapBody 13.
Definition swap14 := swapBody 14.
Definition swap15 := swapBody 15.
Definition swap16 := swapBody 16.

(** [st.push(&st.data[st.len()-n])] *)
Definition dup (n : Z) (st : Stack) : option Stack :=
  p ← gaddr (data st) (len st - n);
  d ← load st p;
  Some (push d st).

Definition peek (st : Stack) : option ptr := gaddr (data st) (len st - 1).

Definition Back (n : Z) (st : Stack) : option ptr :=
  gaddr (data st) (len st - n - 1).

End Stack.

(** ** core/vm/analysis.go, as pinned down by core/vm/analysis_test.go *)

Module Analysis.

(** Modelled from the spec: the opcode byte values of core/vm/opcodes.go,
    which is missing.  The push opcodes are a contiguous range, the first
    with 1 immediate byte and the last with 32; the jump-target opcode
    lies outside it. *)
Definition PUSH1 : Z := 0x60.
Definition PUSH2 : Z := 0x61.
Definition PUSH3 : Z := 0x62.
Definition PUSH8 : Z := 0x67.
Definition PUSH16 : Z := 0x6f.
Definition PUSH32 : Z := 0x7f.
Definition JUMPDEST : Z := 0x5b.

(** Modelled from the spec: [type bitvec], whose declaration is missing.
    A sequence of 32-bit words, as the test prints and compares them. *)
Definition bitvec : Type := list Z.

(** Modelled from the spec: the number of immediate bytes of opcode byte
    [op], a linear function of its value on the push range; 0 when [op] is
    not a push. *)
Definition immediates (op : Z) : Z :=
  if decide (PUSH1 <= op <= PUSH32) then op - PUSH1 + 1 else 0.

(** Modelled from the spec: setting one bit of the missing [bitvec],
    [bits[pos/32] |= 1 << (pos % 32)] on 32-bit words; the index is
    bounds-checked as Go does. *)
Definition set1 (bits : bitvec) (pos : Z) : option bitvec :=
  w ← gidx bits (pos / 32);
  gstore bits (pos / 32) (Z.lor w (Z.shiftl 1 (pos mod 32) mod 2 ^ 32)).

(** Modelled from the spec: marking the [n] positions [pos, pos + n), one
    bit at a time (the spec asks of any bulk path that it give the same
    bits). *)
Fixpoint setN (bits : bitvec) (pos : Z) (n : nat) : option bitvec :=
  match n with
  | O => Some bits
  | S k => bits' ← set1 bits pos; setN bits' (pos + 1) k
  end.

(** Modelled from the spec: [codeBitvecInternal] of core/vm/analysis.go,
    which is missing.  One left-to-right pass with a cursor [pc]: a push
    with [n] immediates marks the bits of [(pc, pc + n]] and moves the
    cursor by [1 + n], any other byte moves it by 1.  The marked range is
    not clipped to the code length: the vectors of [TestBitvec] expect the
    bits past the end of the buffer (see [tests] below).  [fuel] bounds
    the number of loop iterations. *)
Fixpoint codeBitvecInternal (fuel : nat) (code : list Z) (pc : Z)
    (bits : bitvec) : option bitvec :=
  match fuel with
  | O => Some bits
  | S fuel' =>
      if decide (pc < glen code) then
        op ← gidx code pc;
        let n := immediates op in
        if decide (0 < n) then
          bits' ← setN bits (pc + 1) (Z.to_nat n);
          codeBitvecInternal fuel' code (pc + 1 + n) bits'
        else codeBitvecInternal fuel' code (pc + 1) bits
      else Some bits
  end.

(** Modelled from the spec: [newCodeBitVec] of core/vm/analysis.go, which
    is missing.  The bitmap has [len(code)/32 + 2] zeroed words, the
    length of every expected vector of [TestBitvec]; the cursor moves by
    at least 1 per iteration, so [len(code)] iterations suffice. *)
Definition newCodeBitVec (code : list Z) : option bitvec :=
  codeBitvecInternal (length code) code 0
    (replicate (Z.to_nat (glen code / 32 + 2)) 0).

(** Modelled from the spec: the query [IsPushData(bitmap, position)], which
    is missing from src/.  A lookup of one bit, total on every position
    and false where the bitmap has no word. *)
Definition IsPushData (bits : bitvec) (pos : Z) : bool :=
  match gidx bits (pos / 32) with
  | Some w => Z.testbit w (pos mod 32)
  | None => false
  end.

(** The table of [TestBitvec]: [(Code, Want)]. *)
Definition tests : list (list Z * bitvec) :=
  [ ([], [0; 0]);
    ([PUSH1; 0x01; 0x01; 0x01], [0x2; 0]);
    ([PUSH2; 0x01; 0x01; 0x01], [0x6; 0]);
    ([PUSH1; PUSH1; PUSH1; PUSH1], [0xa; 0]);
    ([0x00; PUSH1; 0x00; PUSH1; 0x00; PUSH1; 0x00; PUSH1],
     [0x154; 0]);
    ([PUSH8; PUSH8; PUSH8; PUSH8; PUSH8; PUSH8; PUSH8; PUSH8;
      0x01; 0x01; 0x01],
     [0x1fe; 0]);
    ([0x01; 0x01; 0x01; 0x01; 0x01; PUSH2; 0x01; 0x01; 0x01; 0x01; 0x01],
     [0xc0; 0]);
    ([PUSH3; 0x01; 0x01; 0x01; PUSH1; 0x01; 0x01; 0x01; 0x01; 0x01; 0x01],
     [0x2e; 0]);
    ([0x01; PUSH8; 0x01; 0x01; 0x01; 0x01; 0x01; 0x01; 0x01; 0x01; 0x01;
      0x01],
     [0x3fc; 0]);
    ([PUSH16; 0x01; 0x01; 0x01; 0x01; 0x01; 0x01; 0x01; 0x01; 0x01; 0x01],
     [0x1fffe; 0]);
    ([PUSH8; 0x01; 0x02; 0x03; 0x04; 0x05; 0x06; 0x07; 0x08; PUSH1; 0x01],
     [0x5fe; 0]);
    ([PUSH32], [0xfffffffe; 0x1]);
    (replicate 30 0x00 ++ [PUSH2; 0xff; 0xff],
     [0x80000000; 0x1; 0]);
    (replicate 31 0x00 ++ [PUSH32],
     [0; 0xffffffff; 0]) ].

(** The loop of [TestBitvec]: every vector is reproduced. *)
Definition TestBitvec : bool :=
  forallb (fun t => bool_decide (newCodeBitVec (fst t) = Some (snd t))) tests.

End Analysis.

(** ** internal/ethapi/api_ext.go *)

Module EthAPI.

(** Go [error] values: those made elsewhere are opaque, the two made in
    this file by [fmt.Errorf] keep what they wrap. *)
Inductive error : Type :=
| ErrOpaque (msg : string)
| ErrReason (err : error) (reason : string)
    (* fmt.Errorf("%w: %s", err, reason) *)
| ErrCallReverted (n : Z) (err : error).
    (* fmt.Errorf("call %d reverted: %w", n, err) *)

(** [core.ExecutionResult], as far as this file reads it. *)
Record ExecutionResult : Type := mkExecutionResult {
  UsedGas : Z;
  ResultErr : option error;
  ReturnData : list Z
}.

(** [type ExecutionResultArgs struct].  [AccessList_] and [Logs_] are its
    fields [AccessList] and [Logs]; the bare names are taken by the type
    and by the [StateDB] method below. *)
Record ExecutionResultArgs {AccessList Log : Type} : Type :=
  mkExecutionResultArgs {
    GasUsed : Z;
    MinGasLimit : Z;
    Output : list Z;
    AccessList_ : AccessList;
    Logs_ : list Log;
    Err : option error
  }.
Arguments ExecutionResultArgs : clear implicits.

(** What one [core.ApplyMessage(evm, msg, gp)] leaves behind: the state
    and gas pool it mutated, what [vmError()] then reports, its
    [(result, err)] and what the call's tracer collected. *)
Record Applied {StateDB GasPool AccessList : Type} : Type := mkApplied {
  post_state : StateDB;
  post_gas : GasPool;
  vmError : option error;
  outcome : ExecutionResult + error;
  traced : AccessList
}.
Arguments Applied : clear implicits.

(** The collaborators of this file, none of which is under src/: the
    [Backend] interface, [state.StateDB], [TransactionArgs],
    [StateOverride], [core], [logger] and [abi.UnpackRevert].  They are
    parameters of the development.  The context's timeout and the
    goroutine that cancels the EVM act through [vmError] and the outcome
    of [ApplyMessage] only.  [To] is [msg.To()], a [*common.Address] that
    is nil ([None]) for a message that creates a contract. *)
Class World : Type := {
  StateDB : Type;
  Header : Type;
  Message : Type;
  Address : Type;
  TransactionArgs : Type;
  BlockNumberOrHash : Type;
  StateOverride : Type;
  AccessList : Type;
  Log : Type;
  GasPool : Type;
  (* zero value of [types.AccessList], for [make] *)
  nilAccessList : AccessList;
  (* b.StateAndHeaderByNumberOrHash(ctx, blockNrOrHash) *)
  StateAndHeaderByNumberOrHash :
    BlockNumberOrHash -> option StateDB * Header * option error;
  (* overrides.Apply(state) *)
  Apply : StateOverride -> StateDB -> StateDB * option error;
  (* new(core.GasPool).AddGas(math.MaxUint64) *)
  newGasPool : GasPool;
  (* arg.ToMessage(math.MaxUint64, header.BaseFee) *)
  ToMessage : TransactionArgs -> Header -> Message + error;
  (* msg.To() *)
  To : Message -> option Address;
  (* the err of b.GetEVM(ctx, msg, state, header, cfg) *)
  GetEVM : Message -> StateDB -> Header -> option error;
  ApplyMessage :
    Message -> StateDB -> GasPool -> Applied StateDB GasPool AccessList;
  GetRefund : StateDB -> Z;
  Logs : StateDB -> list Log;
  (* state.Commit(false) *)
  Commit : StateDB -> StateDB;
  (* abi.UnpackRevert(data) *)
  UnpackRevert : list Z -> string + error
}.

Section WithWorld.
Context {W : World}.

Definition Result : Type := ExecutionResultArgs AccessList Log.

(** What a Go function of type [([]ExecutionResultArgs, error)] hands
    back; [None] in the first component is the nil slice. *)
Definition Returned : Type := option (list Result) * option error.

(** An element of [make([]ExecutionResultArgs, n)]. *)
Definition zeroResult : Result :=
  mkExecutionResultArgs _ _ 0 0 [] nilAccessList [] None.

(** The record stored in [results[i]]; the sum of two [uint64] wraps. *)
Definition resultOf (result : ExecutionResult)
    (a : Applied StateDB GasPool AccessList) : Result :=
  mkExecutionResultArgs _ _
    (UsedGas result)
    ((UsedGas result + GetRefund (post_state a)) mod 2 ^ 64)
    (ReturnData result)
    (traced a)
    (Logs (post_state a))
    (ResultErr result).

(** [for i, arg := range args { ... }] of [DoMulticall], entered at
    index [i] with [rest] still to run.  [state] and [gp] are the
    shared objects every iteration mutates.  The tracer is made from
    [*msg.To()]: on a message without recipient the dereference of the nil
    pointer panics. *)
Fixpoint callLoop (header : Header) (nargs : Z) (i : Z)
    (rest : list TransactionArgs) (state : StateDB) (gp : GasPool)
    (results : list Result) : option Returned :=
  match rest with
  | [] => Some (Some results, None)
  | arg :: rest' =>
      match ToMessage arg header with
      | inr err => Some (None, Some err)
      | inl msg =>
          match To msg with
          | None => None
          | Some _ =>
              match GetEVM msg state header with
              | Some err => Some (None, Some err)
              | None =>
                  let a := ApplyMessage msg state gp in
                  match vmError a with
                  | Some err => Some (None, Some err)
                  | None =>
                      match outcome a with
                      | inr err => Some (None, Some err)
                      | inl result =>
                          results' ← gstore results i (resultOf result a);
                          let state' :=
                            if decide (i < nargs - 1)
                            then Commit (post_state a) else post_state a in
                          callLoop header nargs (i + 1) rest' state'
                            (post_gas a) results'
                      end
                  end
              end
          end
      end
  end.

Definition DoMulticall (args : list TransactionArgs)
    (blockNrOrHash : BlockNumberOrHash) (overrides : StateOverride)
    : option Returned :=
  match StateAndHeaderByNumberOrHash blockNrOrHash with
  | (None, _, err) => Some (None, err)
  | (Some _, _, Some err) => Some (None, Some err)
  | (Some state, header, None) =>
      match Apply overrides state with
      | (_, Some err) => Some (None, Some err)
      | (state, None) =>
          callLoop header (glen args) 0 args state newGasPool
            (replicate (length args) zeroResult)
      end
  end.

(** [for i, result := range results { ... }] of [Multicall], entered at
    index [i].  [result] is the loop's copy of the element, so the
    assignment to [result.Err] changes the copy only. *)
Fixpoint reportLoop (i : Z) (rest : list Result)
    (firstErr : option error) : option error :=
  match rest with
  | [] => firstErr
  | result :: rest' =>
      match Err result with
      | Some err =>
          let result_Err :=
            match UnpackRevert (Output result) with
            | inl reason => ErrReason err reason
            | inr _ => err
            end in
          reportLoop (i + 1) rest'
            (Some (ErrCallReverted (i + 1) result_Err))
      | None => reportLoop (i + 1) rest' firstErr
      end
  end.

Definition Multicall (args : list TransactionArgs)
    (blockNrOrHash : BlockNumberOrHash) (overrides : StateOverride)
    : option Returned :=
  r ← DoMulticall args blockNrOrHash overrides;
  match r with
  | (_, Some err) => Some (None, Some err)
  | (results, None) =>
      Some (results, reportLoop 0 (default [] results) None)
  end.

End WithWorld.

End EthAPI.

(** * Specifications *)

(** ** Uniform views of the stack's fixed-arity operations *)

Module StackSpec.
Import Stack.

(** The N-ary pop for N in 2..4, its tuple listed from [pop0] on. *)
Definition popN (n : Z) (st : Stack) : option (list uint256 * Stack) :=
  match n with
  | 2 => '(p0, p1, st') ← pop2 st; Some ([p0; p1], st')
  | 3 => '(p0, p1, p2, st') ← pop3 st; Some ([p0; p1; p2], st')
  | 4 => '(p0, p1, p2, p3, st') ← pop4 st; Some ([p0; p1; p2; p3], st')
  | _ => None
  end.

(** [n] single pops in succession, their values in the order obtained. *)
Fixpoint pops (n : nat) (st : Stack) : option (list uint256 * Stack) :=
  match n with
  | O => Some ([], st)
  | S k =>
      '(v, st1) ← pop st;
      '(vs, st2) ← pops k st1;
      Some (v :: vs, st2)
  end.

(** The pop-and-peek of arity [k], its popped values listed from [pop0]
    on, then the pointer. *)
Definition popNPeek (k : Z) (st : Stack)
  : option (list uint256 * ptr * Stack) :=
  match k with
  | 1 => '(p0, pk, st') ← popPeek st; Some ([p0], pk, st')
  | 2 => '(p0, p1, pk, st') ← pop2Peek st; Some ([p0; p1], pk, st')
  | 3 => '(p0, p1, p2, pk, st') ← pop3Peek st; Some ([p0; p1; p2], pk, st')
  | 5 =>
      '(p0, p1, p2, p3, p4, pk, st') ← pop5Peek st;
      Some ([p0; p1; p2; p3; p4], pk, st')
  | 6 =>
      '(p0, p1, p2, p3, p4, p5, pk, st') ← pop6Peek st;
      Some ([p0; p1; p2; p3; p4; p5], pk, st')
  | _ => None
  end.

(** [swap1] .. [swap16] by their number. *)
Definition swapN (n : Z) : Stack -> option Stack :=
  match n with
  | 1 => swap1 | 2 => swap2 | 3 => swap3 | 4 => swap4
  | 5 => swap5 | 6 => swap6 | 7 => swap7 | 8 => swap8
  | 9 => swap9 | 10 => swap10 | 11 => swap11 | 12 => swap12
  | 13 => swap13 | 14 => swap14 | 15 => swap15 | 16 => swap16
  | _ => fun _ => None
  end.

End StackSpec.

(** ** What the bitmap is meant to record *)

Module AnalysisSpec.
Import Analysis.

(** [cursor code pc pc']: a scan whose cursor stands at [pc] later has it
    at [pc'], every step jumping over the opcode and its immediates. *)
Inductive cursor (code : list Z) : Z -> Z -> Prop :=
| cursor_here pc : cursor code pc pc
| cursor_next pc op pc' :
    gidx code pc = Some op ->
    cursor code (pc + 1 + immediates op) pc' ->
    cursor code pc pc'.

(** [pushdata_from code pc q]: position [q] lies in the range
    [(pc', pc' + n]] of an instruction with [n] immediates that a scan
    from [pc] decodes at [pc']. *)
Definition pushdata_from (code : list Z) (pc q : Z) : Prop :=
  exists pc' op,
    cursor code pc pc' /\ gidx code pc' = Some op /\
    pc' < q <= pc' + immediates op.

Definition pushdata (code : list Z) (q : Z) : Prop := pushdata_from code 0 q.

(** The positions of the bitmap [bits], for checking a bit pattern by
    enumeration. *)
Definition positions (bits : bitvec) : list Z := seqZ 0 (32 * glen bits).

Definition bits_are (bits : bitvec) (f : Z -> bool) : bool :=
  forallb (fun q => bool_decide (IsPushData bits q = f q)) (positions bits).

End AnalysisSpec.

(** ** What a batch of calls is meant to do *)

Module EthAPISpec.
Import EthAPI.

Section WithWorld.
Context {W : World}.

(** One call of the batch that does not stop it: the message converts and
    has a recipient, the EVM is obtained, and neither [vmError()] nor
    [ApplyMessage] reports an error.  Whether the result itself records a
    failure plays no part. *)
Definition runs (header : Header) (arg : TransactionArgs)
    (state : StateDB) (gp : GasPool)
  : option (Applied StateDB GasPool AccessList * ExecutionResult) :=
  match ToMessage arg header with
  | inr _ => None
  | inl msg =>
      match To msg, GetEVM msg state header with
      | Some _, None =>
          let a := ApplyMessage msg state gp in
          match vmError a, outcome a with
          | None, inl result => Some (a, result)
          | _, _ => None
          end
      | _, _ => None
      end
  end.

(** The shared state and gas pool as call number [i] of [args] finds them:
    every earlier call applied to what its predecessors left, and
    committed. *)
Fixpoint before (header : Header) (args : list TransactionArgs) (i : nat)
    (state : StateDB) (gp : GasPool) : option (StateDB * GasPool) :=
  match i, args with
  | O, _ => Some (state, gp)
  | S k, arg :: rest =>
      '(a, _) ← runs header arg state gp;
      before header rest k (Commit (post_state a)) (post_gas a)
  | S _, [] => None
  end.

End WithWorld.

(** A small world to run batches in.  The state is a balance; a message
    [m >= 0] deposits [m] and returns the balance it found; a message
    [m < 0] reverts, leaves the balance alone and returns the revert data
    [[-m]].  Every message is sent to the one account [1]. *)
Definition demoApply (msg state gp : Z) : Applied Z Z (list Z) :=
  if decide (0 <= msg) then
    mkApplied _ _ _ (state + msg) (gp - 21000) None
      (inl (mkExecutionResult 21000 None [state])) [msg]
  else
    mkApplied _ _ _ state (gp - 21000) None
      (inl (mkExecutionResult 21000
              (Some (ErrOpaque "execution reverted")) [- msg])) [msg].

Definition demoUnpackRevert (data : list Z) : string + error :=
  match data with
  | [1] => inl "insufficient balance"%string
  | [2] => inl "not owner"%string
  | _ => inr (ErrOpaque "invalid data for unpacking")
  end.

Definition demoWorld : World := {|
  StateDB := Z;
  Header := unit;
  Message := Z;
  Address := Z;
  TransactionArgs := Z;
  BlockNumberOrHash := unit;
  StateOverride := unit;
  AccessList := list Z;
  Log := Z;
  GasPool := Z;
  nilAccessList := [];
  StateAndHeaderByNumberOrHash := fun _ => (Some 100, tt, None);
  Apply := fun _ state => (state, None);
  newGasPool := 2 ^ 64 - 1;
  ToMessage := fun arg _ => inl arg;
  To := fun _ => Some 1;
  GetEVM := fun _ _ _ => None;
  ApplyMessage := demoApply;
  GetRefund := fun _ => 0;
  Logs := fun _ => [];
  Commit := fun state => state;
  UnpackRevert := demoUnpackRevert
|}.

End EthAPISpec.

(** ** Sequences of stack operations and the ways a call stops a batch *)

Module StackSeq.
Import Stack.

(** [push] of each value of [xs] in turn, the first of [xs] first. *)
Definition pushes (xs : list uint256) (st : Stack) : Stack :=
  foldl (fun st d => push d st) st xs.

End StackSeq.

Module EthAPIStops.
Import EthAPI.

Section WithWorld.
Context {W : World}.

(** The error with which one iteration of [DoMulticall]'s loop returns
    [(nil, err)], in the order the loop tests them: message conversion,
    [GetEVM], [vmError()], then the [err] of [ApplyMessage].  A message
    without recipient returns no error: the iteration panics. *)
Definition stops (header : Header) (arg : TransactionArgs)
    (state : StateDB) (gp : GasPool) : option error :=
  match ToMessage arg header with
  | inr err => Some err
  | inl msg =>
      match To msg with
      | None => None
      | Some _ =>
          match GetEVM msg state header with
          | Some err => Some err
          | None =>
              let a := ApplyMessage msg state gp in
              match vmError a with
              | Some err => Some err
              | None =>
                  match outcome a with
                  | inr err => Some err
                  | inl _ => None
                  end
              end
          end
      end
  end.

End WithWorld.

End EthAPIStops.

(** ** A second world, in which a batch can stop *)

Module EthAPIWorlds.
Import EthAPI EthAPISpec.

(** As [demoWorld], except that the backend knows the block [true] only
    and hands back no state and no error for the block [false], that the
    argument [0] does not convert to a message, and that the message [42]
    creates a contract: it has no recipient. *)
Definition strictWorld : World := {|
  StateDB := Z;
  Header := unit;
  Message := Z;
  Address := Z;
  TransactionArgs := Z;
  BlockNumberOrHash := bool;
  StateOverride := unit;
  AccessList := list Z;
  Log := Z;
  GasPool := Z;
  nilAccessList := [];
  StateAndHeaderByNumberOrHash := fun known : bool =>
    if known then (Some 100, tt, None) else (None, tt, None);
  Apply := fun _ state => (state, None);
  newGasPool := 2 ^ 64 - 1;
  ToMessage := fun arg _ =>
    if decide (arg = 0) then inr (ErrOpaque "invalid transaction")
    else inl arg;
  To := fun msg => if decide (msg = 42) then None else Some 1;
  GetEVM := fun _ _ _ => None;
  ApplyMessage := demoApply;
  GetRefund := fun _ => 0;
  Logs := fun _ => [];
  Commit := fun state => state;
  UnpackRevert := demoUnpackRevert
|}.

End EthAPIWorlds.

(** * Properties *)

(** ** Go slices *)

Section GoSliceFacts.
Context {A : Type}.
Implicit Types (s r xs : list A).

Lemma glen_app r xs : glen (r ++ xs) = glen r + glen xs.
Proof. unfold glen. rewrite length_app. lia. Qed.

Lemma glen_nonneg s : 0 <= glen s.
Proof. unfold glen. lia. Qed.

(** Reading slot [k] of the group [xs] that sits on top of [r]. *)
Lemma gidx_top r xs i (k : nat) :
  i = glen r + Z.of_nat k -> gidx (r ++ xs) i = xs !! k.
Proof.
  intros ->. unfold gidx, glen.
  destruct (decide _) as [_|]; [|lia].
  rewrite lookup_app_r by lia. f_equal. lia.
Qed.

Lemma gidx_below r xs i :
  0 <= i < glen r -> gidx (r ++ xs) i = r !! Z.to_nat i.
Proof.
  intros Hi. unfold gidx, glen in *.
  destruct (decide _) as [_|]; [|lia].
  apply lookup_app_l. lia.
Qed.

Lemma gupto_top r xs j : j = glen r -> gupto (r ++ xs) j = Some r.
Proof.
  intros ->. unfold gupto.
  destruct (decide _) as [_|Hn].
  - unfold glen. rewrite Nat2Z.id. by rewrite take_app_length.
  - rewrite glen_app in Hn.
    pose proof (glen_nonneg r). pose proof (glen_nonneg xs). lia.
Qed.

Lemma gaddr_in s i :
  0 <= i < glen s -> gaddr s i = Some (Z.to_nat i).
Proof. intros Hi. unfold gaddr. by destruct (decide _). Qed.

(** The address of the last slot of [r ++ [y]] under a group [xs]. *)
Lemma gaddr_under r y xs i :
  i = glen r -> gaddr ((r ++ [y]) ++ xs) i = Some (length r).
Proof.
  intros ->. rewrite gaddr_in.
  - unfold glen. by rewrite Nat2Z.id.
  - rewrite !glen_app. unfold glen. cbn [length]. lia.
Qed.

(** A slice of at least [n] elements is some [r] below a group of [n]. *)
Lemma split_top (n : nat) s :
  Z.of_nat n <= glen s ->
  exists r xs, s = r ++ xs /\ length xs = n /\
    r = take (Z.to_nat (glen s - Z.of_nat n)) s.
Proof.
  unfold glen. intros Hn.
  exists (take (length s - n) s), (drop (length s - n) s).
  split; [by rewrite take_drop|]. split.
  - rewrite length_drop. lia.
  - f_equal. lia.
Qed.

Lemma gidx_nat s (i : nat) : gidx s (Z.of_nat i) = s !! i.
Proof.
  unfold gidx. destruct (decide _) as [_|]; [|lia]. by rewrite Nat2Z.id.
Qed.

Lemma gstore_nat s (i : nat) v :
  (i < length s)%nat -> gstore s (Z.of_nat i) v = Some (<[i := v]> s).
Proof.
  intros Hi. unfold gstore, glen.
  destruct (decide _) as [_|]; [|lia]. by rewrite Nat2Z.id.
Qed.

Lemma gstore_in s i v :
  0 <= i < glen s -> gstore s i v = Some (<[Z.to_nat i := v]> s).
Proof. intros Hi. unfold gstore. by destruct (decide _). Qed.

(** Exchanging two distinct slots twice gives the slice back. *)
Lemma exchange_twice s (i j : nat) x y :
  i <> j -> s !! i = Some x -> s !! j = Some y ->
  <[j := y]> (<[i := x]> (<[j := x]> (<[i := y]> s))) = s.
Proof.
  intros Hij Hx Hy.
  rewrite (list_insert_insert_ne _ i j) by done.
  rewrite !list_insert_insert_eq, (list_insert_id s i x) by done.
  by apply list_insert_id.
Qed.

End GoSliceFacts.

(** ** The stack *)

Module StackFacts.
Import Stack.

Ltac len_arith :=
  unfold len, uint256 in *; cbn [data] in *; rewrite ?glen_app in *;
  unfold glen in *; cbn [length] in *; lia.

(** Evaluate one read of the top group, and the reslice. *)
Ltac read_top :=
  match goal with
  | |- context [gidx (?r ++ ?xs) ?i] =>
      first [ rewrite (gidx_top r xs i 0) by len_arith
            | rewrite (gidx_top r xs i 1) by len_arith
            | rewrite (gidx_top r xs i 2) by len_arith
            | rewrite (gidx_top r xs i 3) by len_arith
            | rewrite (gidx_top r xs i 4) by len_arith
            | rewrite (gidx_top r xs i 5) by len_arith
            | rewrite (gidx_top r xs i 6) by len_arith ];
      cbn [lookup list_lookup mbind option_bind]
  end.

Ltac cut_top :=
  match goal with
  | |- context [gupto (?r ++ ?xs) _] =>
      rewrite (gupto_top r xs) by len_arith; cbn [mbind option_bind]
  end.

Lemma pop_top r a : pop (mkStack (r ++ [a])) = Some (a, mkStack r).
Proof. unfold pop; cbn [data]. read_top. cut_top. reflexivity. Qed.

Lemma pop2_top r a b :
  pop2 (mkStack (r ++ [a; b])) = Some ((b, a), mkStack r).
Proof.
  unfold pop2; cbn [data]. read_top. read_top. cut_top. reflexivity.
Qed.

Lemma pop3_top r a b c :
  pop3 (mkStack (r ++ [a; b; c])) = Some ((c, b, a), mkStack r).
Proof.
  unfold pop3; cbn [data]. read_top. read_top. read_top.
  cut_top. reflexivity.
Qed.

Lemma pop4_top r a b c d :
  pop4 (mkStack (r ++ [a; b; c; d])) = Some ((d, c, b, a), mkStack r).
Proof.
  unfold pop4; cbn [data]. read_top. read_top. read_top.
  read_top. cut_top. reflexivity.
Qed.

Ltac addr_under :=
  match goal with
  | |- context [gaddr ((?r ++ [?y]) ++ ?xs) _] =>
      rewrite (gaddr_under r y xs) by len_arith; cbn [mbind option_bind]
  end.

Ltac run_pop := cbn [data]; repeat addr_under; repeat read_top; cut_top.

Lemma popPeek_top r y a :
  popPeek (mkStack ((r ++ [y]) ++ [a]))
  = Some ((a, length r), mkStack (r ++ [y])).
Proof. unfold popPeek. run_pop. reflexivity. Qed.

Lemma pop2Peek_top r y a b :
  pop2Peek (mkStack ((r ++ [y]) ++ [a; b]))
  = Some ((b, a, length r), mkStack (r ++ [y])).
Proof. unfold pop2Peek. run_pop. reflexivity. Qed.

Lemma pop3Peek_top r y a b c :
  pop3Peek (mkStack ((r ++ [y]) ++ [a; b; c]))
  = Some ((c, b, a, length r), mkStack (r ++ [y])).
Proof. unfold pop3Peek. run_pop. reflexivity. Qed.

Lemma pop5Peek_top r y a b c d e :
  pop5Peek (mkStack ((r ++ [y]) ++ [a; b; c; d; e]))
  = Some ((e, d, c, b, a, length r), mkStack (r ++ [y])).
Proof. unfold pop5Peek. run_pop. reflexivity. Qed.

Lemma pop6Peek_top r y a b c d e f :
  pop6Peek (mkStack ((r ++ [y]) ++ [a; b; c; d; e; f]))
  = Some ((f, e, d, c, b, a, length r), mkStack (r ++ [y])).
Proof. unfold pop6Peek. run_pop. reflexivity. Qed.

(** The pointer handed out designates the top slot of the shrunk stack. *)
Lemma peek_top r y : peek (mkStack (r ++ [y])) = Some (length r).
Proof.
  unfold peek, len; cbn [data]. rewrite gaddr_in by len_arith.
  f_equal. len_arith.
Qed.

Lemma load_top r y : load (mkStack (r ++ [y])) (length r) = Some y.
Proof. unfold load; cbn [data]. by rewrite list_lookup_middle. Qed.

Lemma store_top r y v :
  store (mkStack (r ++ [y])) (length r) v = mkStack (r ++ [v]).
Proof.
  unfold store; cbn [data]. f_equal.
  rewrite insert_app_r_alt by lia. by rewrite Nat.sub_diag.
Qed.

Import StackSpec.

Ltac arity H :=
  match type of H with
  | ?lo <= ?n <= ?hi =>
      let E := fresh in
      assert (E : n = 1 \/ n = 2 \/ n = 3 \/ n = 4 \/ n = 5 \/ n = 6 \/
                  n = 7 \/ n = 8 \/ n = 9 \/ n = 10 \/ n = 11 \/ n = 12 \/
                  n = 13 \/ n = 14 \/ n = 15 \/ n = 16) by lia;
      repeat (destruct E as [->|E]; [try lia|]);
      try (revert E; intros ->; try lia)
  end.

(** A list whose length is a numeral is that many elements. *)
Ltac explode xs H :=
  unfold glen in H; cbn in H;
  repeat (destruct xs as [|? xs]; cbn in H; try lia).

Lemma popN_top n r xs :
  2 <= n <= 4 -> glen xs = n ->
  popN n (mkStack (r ++ xs)) = Some (rev xs, mkStack r).
Proof.
  intros Hn Hxs. arity Hn; explode xs Hxs; cbn [popN rev app].
  - by rewrite pop2_top.
  - by rewrite pop3_top.
  - by rewrite pop4_top.
Qed.

Lemma pops_top r xs :
  pops (length xs) (mkStack (r ++ xs)) = Some (rev xs, mkStack r).
Proof.
  induction xs as [|a xs IH] using rev_ind.
  - cbn. by rewrite app_nil_r.
  - rewrite length_app, Nat.add_comm; cbn [length Nat.add pops].
    rewrite app_assoc, pop_top; cbn [mbind option_bind].
    rewrite IH; cbn [mbind option_bind]. by rewrite rev_unit.
Qed.

Lemma popNPeek_top k r y xs :
  k = 1 \/ k = 2 \/ k = 3 \/ k = 5 \/ k = 6 -> glen xs = k ->
  popNPeek k (mkStack ((r ++ [y]) ++ xs))
  = Some (rev xs, length r, mkStack (r ++ [y])).
Proof.
  intros Hk Hxs.
  repeat (destruct Hk as [->|Hk]); try (revert Hk; intros ->);
    explode xs Hxs; cbn [popNPeek rev app].
  - by rewrite popPeek_top.
  - by rewrite pop2Peek_top.
  - by rewrite pop3Peek_top.
  - by rewrite pop5Peek_top.
  - by rewrite pop6Peek_top.
Qed.

(** Reading a stack of at least [n] elements as a rest under a top group. *)
Lemma stack_split (n : Z) (st : Stack) :
  0 <= n <= len st ->
  exists r xs, st = mkStack (r ++ xs) /\ glen xs = n.
Proof.
  destruct st as [d]. unfold len; cbn [data]. intros Hn.
  destruct (split_top (Z.to_nat n) d) as (r & xs & -> & Hlen & _); [lia|].
  exists r, xs. split; [done|]. unfold glen. lia.
Qed.

(** C1, as stated, fails: after pushing 1, 2, 3 in that order, [pop3]
    returns 3 (the former top) first and 1 (the deepest) last. *)
Lemma pop3_deepest_first_counterexample :
  let st := push 3 (push 2 (push 1 (mkStack []))) in
  pop3 st = Some ((3, 2, 1), mkStack []) /\
  pop3 st <> Some ((1, 2, 3), mkStack []).
Proof. split; [reflexivity | discriminate]. Qed.

(** C1, amended: on a stack of at least N elements (N in 2..4) the N-ary
    pop removes exactly the top N elements and returns them with [pop0]
    the former top and [pop(N-1)] the deepest of the group; after pushing
    [a], [b], [c] in that order, [pop3] returns [(c, b, a)]. *)
Theorem popN_former_top_first (n : Z) (st : Stack) :
  2 <= n <= 4 -> n <= len st ->
  (exists xs st',
     popN n st = Some (xs, st') /\
     glen xs = n /\
     data st = data st' ++ rev xs /\
     head xs = gidx (data st) (len st - 1) /\
     last xs = gidx (data st) (len st - n)) /\
  (forall a b c, pop3 (push c (push b (push a st))) = Some ((c, b, a), st)).
Proof.
  intros Hn Hlen. split.
  - destruct (stack_split n st) as (r & xs & -> & Hxs); [lia|].
    exists (rev xs), (mkStack r).
    rewrite (popN_top n r xs Hn Hxs), rev_involutive; cbn [data].
    repeat split.
    + unfold glen in *. by rewrite length_rev.
    + arity Hn; explode xs Hxs; cbn [rev app head]; by read_top.
    + arity Hn; explode xs Hxs; cbn [rev app last]; by read_top.
  - intros a b c. destruct st as [d]. unfold push; cbn [data].
    rewrite <- !app_assoc. apply pop3_top.
Qed.

Lemma popN_former_top_first_witness :
  2 <= 3 <= 4 /\ 3 <= len (mkStack [10; 20; 30; 40]) /\
  exists xs st',
    popN 3 (mkStack [10; 20; 30; 40]) = Some (xs, st') /\
    data (mkStack [10; 20; 30; 40]) = data st' ++ rev xs.
Proof.
  assert (H1 : 2 <= 3 <= 4) by lia.
  assert (H2 : 3 <= len (mkStack [10; 20; 30; 40])) by (cbv; discriminate).
  split; [exact H1|]. split; [exact H2|].
  destruct (popN_former_top_first 3 (mkStack [10; 20; 30; 40]) H1 H2)
    as [(xs & st' & E & _ & D & _) _].
  exists xs, st'. split; [exact E | exact D].
Defined.

(** C10: on a stack of at least N elements (N in 2..4) the N-ary pop
    returns, and it leaves the stack and lists the values exactly as N
    single pops in succession do, the first pop's value first. *)
Theorem popN_is_successive_pops (n : Z) (st : Stack) :
  2 <= n <= 4 -> n <= len st ->
  is_Some (popN n st) /\ popN n st = pops (Z.to_nat n) st.
Proof.
  intros Hn Hlen.
  destruct (stack_split n st) as (r & xs & -> & Hxs); [lia|].
  rewrite (popN_top n r xs Hn Hxs). split; [by eexists|].
  replace (Z.to_nat n) with (length xs) by (unfold glen in Hxs; lia).
  symmetry. apply pops_top.
Qed.

Lemma popN_is_successive_pops_witness :
  2 <= 4 <= 4 /\ 4 <= len (mkStack [10; 20; 30; 40; 50]) /\
  popN 4 (mkStack [10; 20; 30; 40; 50])
  = pops 4 (mkStack [10; 20; 30; 40; 50]).
Proof.
  assert (H1 : 2 <= 4 <= 4) by lia.
  assert (H2 : 4 <= len (mkStack [10; 20; 30; 40; 50]))
    by (cbv; discriminate).
  split; [exact H1|]. split; [exact H2|].
  exact (proj2 (popN_is_successive_pops 4 _ H1 H2)).
Defined.

(** C7: on a stack of at least k+1 elements (k in 1, 2, 3, 5, 6) the
    pop-and-peek of arity [k] removes exactly the top [k] elements and the
    pointer it returns is the one [peek] gives on the shrunk stack: it
    designates the new top, which holds the element that lay immediately
    below the popped group, and a write through it is a write of the top. *)
Theorem popNPeek_points_to_new_top (k : Z) (st : Stack) :
  k = 1 \/ k = 2 \/ k = 3 \/ k = 5 \/ k = 6 -> k + 1 <= len st ->
  exists xs p st',
    popNPeek k st = Some (xs, p, st') /\
    glen xs = k /\
    data st = data st' ++ rev xs /\
    peek st' = Some p /\
    (exists y,
       load st' p = Some y /\ gidx (data st) (len st - k - 1) = Some y) /\
    (forall v, exists y st'',
       pop st' = Some (y, st'') /\ pop (store st' p v) = Some (v, st'')).
Proof.
  intros Hk Hlen.
  destruct (stack_split (k + 1) st) as (r & ys & -> & Hys); [lia|].
  destruct ys as [|y xs]; [unfold glen in Hys; cbn in Hys; lia|].
  assert (Hxs : glen xs = k) by (unfold glen in *; cbn [length] in Hys; lia).
  rewrite (cons_middle y r xs), app_assoc.
  exists (rev xs), (length r), (mkStack (r ++ [y])).
  rewrite (popNPeek_top k r y xs Hk Hxs), rev_involutive; cbn [data].
  repeat split.
  - unfold glen in *. by rewrite length_rev.
  - apply peek_top.
  - exists y. split; [apply load_top|].
    rewrite gidx_below by len_arith.
    replace (Z.to_nat _) with (length r) by len_arith.
    by rewrite list_lookup_middle.
  - intros v. exists y, (mkStack r).
    by rewrite store_top, !pop_top.
Qed.

Lemma popNPeek_points_to_new_top_witness :
  (5 = 1 \/ 5 = 2 \/ 5 = 3 \/ 5 = 5 \/ 5 = 6) /\
  5 + 1 <= len (mkStack [1; 2; 3; 4; 5; 6; 7]) /\
  exists xs p st',
    popNPeek 5 (mkStack [1; 2; 3; 4; 5; 6; 7]) = Some (xs, p, st') /\
    peek st' = Some p.
Proof.
  assert (H1 : 5 = 1 \/ 5 = 2 \/ 5 = 3 \/ 5 = 5 \/ 5 = 6)
    by (right; right; right; left; reflexivity).
  assert (H2 : 5 + 1 <= len (mkStack [1; 2; 3; 4; 5; 6; 7]))
    by (cbv; discriminate).
  split; [exact H1|]. split; [exact H2|].
  destruct (popNPeek_points_to_new_top 5 _ H1 H2)
    as (xs & p & st' & E & _ & _ & P & _).
  exists xs, p, st'. split; [exact E | exact P].
Defined.

Lemma swapBody_twice (n : Z) (st : Stack) :
  1 <= n -> n + 1 <= len st -> swapBody n st ≫= swapBody n = Some st.
Proof.
  destruct st as [d]. unfold len; cbn [data]. intros Hn Hlen.
  set (i := Z.to_nat (glen d - (n + 1))).
  set (j := Z.to_nat (glen d - 1)).
  assert (Hi : glen d - (n + 1) = Z.of_nat i) by (unfold glen in *; lia).
  assert (Hj : Z.of_nat i + n = Z.of_nat j) by (unfold glen in *; lia).
  assert (Hij : i <> j) by (unfold glen in *; lia).
  assert (Hjd : (j < length d)%nat) by (unfold glen in *; lia).
  assert (Hid : (i < length d)%nat) by (unfold glen in *; lia).
  destruct (lookup_lt_is_Some_2 d i Hid) as [x Hx].
  destruct (lookup_lt_is_Some_2 d j Hjd) as [y Hy].
  assert (Hrun : forall m a b, glen m = glen d ->
            m !! i = Some a -> m !! j = Some b ->
            swapBody n (mkStack m)
            = Some (mkStack (<[j := a]> (<[i := b]> m)))).
  { intros m a b Hm Ha Hb. unfold swapBody, len; cbn [data].
    rewrite Hm, Hi, Z.add_0_r, Hj.
    destruct (decide _) as [_|]; [|unfold glen in *; lia].
    rewrite !gidx_nat, Ha, Hb; cbn [mbind option_bind].
    rewrite gstore_nat by (unfold glen in *; lia); cbn [mbind option_bind].
    rewrite gstore_nat by (rewrite length_insert; unfold glen in *; lia).
    reflexivity. }
  rewrite (Hrun d x y eq_refl Hx Hy); cbn [mbind option_bind].
  rewrite (Hrun _ y x).
  - by rewrite (exchange_twice d i j x y).
  - unfold glen. by rewrite !length_insert.
  - rewrite list_lookup_insert_ne by done. by apply list_lookup_insert_eq.
  - apply list_lookup_insert_eq. by rewrite length_insert.
Qed.

Lemma dup1_pop (st : Stack) :
  1 <= len st -> exists v, dup 1 st ≫= pop = Some (v, st).
Proof.
  intros Hlen.
  destruct (stack_split 1 st) as (r & xs & -> & Hxs); [lia|].
  destruct xs as [|a [|]]; try (unfold glen in Hxs; cbn in Hxs; lia).
  exists a.
  unfold dup. rewrite gaddr_in by len_arith.
  replace (Z.to_nat _) with (length r) by len_arith.
  cbn [mbind option_bind]. rewrite load_top; cbn [mbind option_bind].
  unfold push; cbn [data]. apply pop_top.
Qed.

(** C8: on a stack of at least n+1 elements (n in 1..16) [swapN] applied
    twice gives the stack back, and on a non-empty stack [dup(1)] followed
    by [pop] gives the stack back. *)
Theorem swap_twice_and_dup_pop (st : Stack) :
  (forall n, 1 <= n <= 16 -> n + 1 <= len st ->
     swapN n st ≫= swapN n = Some st) /\
  (1 <= len st -> exists v, dup 1 st ≫= pop = Some (v, st)).
Proof.
  split; [|apply dup1_pop].
  intros n Hn Hlen.
  assert (E : swapN n = swapBody n) by (arity Hn; reflexivity).
  rewrite E. apply swapBody_twice; lia.
Qed.

Lemma swap_twice_and_dup_pop_witness :
  1 <= 2 <= 16 /\ 2 + 1 <= len (mkStack [7; 8; 9]) /\
  1 <= len (mkStack [7; 8; 9]) /\
  swapN 2 (mkStack [7; 8; 9]) ≫= swapN 2 = Some (mkStack [7; 8; 9]) /\
  exists v, dup 1 (mkStack [7; 8; 9]) ≫= pop = Some (v, mkStack [7; 8; 9]).
Proof.
  assert (H1 : 1 <= 2 <= 16) by lia.
  assert (H2 : 2 + 1 <= len (mkStack [7; 8; 9])) by (cbv; discriminate).
  assert (H3 : 1 <= len (mkStack [7; 8; 9])) by (cbv; discriminate).
  split; [exact H1|]. split; [exact H2|]. split; [exact H3|].
  split.
  - exact (proj1 (swap_twice_and_dup_pop (mkStack [7; 8; 9])) 2 H1 H2).
  - exact (proj2 (swap_twice_and_dup_pop (mkStack [7; 8; 9])) H3).
Defined.

End StackFacts.

(** ** The bitmap *)

Module AnalysisFacts.
Import Analysis AnalysisSpec.

Lemma immediates_range op : 0 <= immediates op <= 32.
Proof.
  unfold immediates, PUSH1, PUSH32. destruct (decide _); lia.
Qed.

(** Bit [m] of the mask [1 << k], for [k] below the word size. *)
Lemma mask_bit k m :
  0 <= k < 32 -> 0 <= m ->
  Z.testbit (Z.shiftl 1 k mod 2 ^ 32) m = bool_decide (m = k).
Proof.
  intros Hk Hm. rewrite Z.shiftl_1_l.
  rewrite Z.mod_small by (split; [lia | apply Z.pow_lt_mono_r; lia]).
  destruct (decide (m = k)) as [->|Hne].
  - rewrite Z.pow2_bits_true by lia. by rewrite bool_decide_eq_true_2.
  - rewrite Z.pow2_bits_false by lia. by rewrite bool_decide_eq_false_2.
Qed.

Lemma IsPushData_neg bits q : q < 0 -> IsPushData bits q = false.
Proof.
  intros Hq. unfold IsPushData, gidx.
  destruct (decide _) as [H|]; [|done].
  exfalso. assert (q / 32 < 0) by (apply Z.div_lt_upper_bound; lia). lia.
Qed.

Lemma IsPushData_past bits q : 32 * glen bits <= q -> IsPushData bits q = false.
Proof.
  intros Hq. unfold IsPushData, gidx.
  destruct (decide _) as [H|]; [|done].
  rewrite (proj2 (lookup_ge_None bits _)); [done|].
  assert (glen bits <= q / 32) by (apply Z.div_le_lower_bound; lia).
  unfold glen in *. lia.
Qed.

(** [set1] within the bitmap succeeds and sets just that bit. *)
Lemma set1_spec bits p :
  0 <= p < 32 * glen bits ->
  exists bits',
    set1 bits p = Some bits' /\ glen bits' = glen bits /\
    forall q, IsPushData bits' q = bool_decide (q = p) || IsPushData bits q.
Proof.
  intros Hp.
  assert (Hw : 0 <= p / 32 < glen bits).
  { split; [apply Z.div_pos; lia | apply Z.div_lt_upper_bound; lia]. }
  assert (Hm : 0 <= p mod 32 < 32) by (apply Z.mod_pos_bound; lia).
  unfold set1, gidx, gstore. destruct (decide _) as [_|]; [|lia].
  destruct (lookup_lt_is_Some_2 bits (Z.to_nat (p / 32))) as [w Hwd];
    [unfold glen in *; lia|].
  rewrite Hwd; cbn [mbind option_bind]. destruct (decide _) as [_|]; [|lia].
  eexists. split; [reflexivity|]. split.
  { unfold glen. by rewrite length_insert. }
  intros q. unfold IsPushData, gidx.
  destruct (decide (0 <= q / 32)) as [Hq|Hq].
  - assert (Hq0 : 0 <= q).
    { destruct (Z_lt_le_dec q 0) as [Hneg|]; [|done].
      assert (q / 32 < 0) by (apply Z.div_lt_upper_bound; lia). lia. }
    assert (Hqm : 0 <= q mod 32 < 32) by (apply Z.mod_pos_bound; lia).
    destruct (decide (q / 32 = p / 32)) as [Hsame|Hdiff].
    + rewrite Hsame.
      rewrite list_lookup_insert_eq by (unfold glen in *; lia). rewrite Hwd.
      rewrite Z.lor_spec, mask_bit by lia. rewrite orb_comm. f_equal.
      apply bool_decide_ext.
      pose proof (Z.div_mod q 32). pose proof (Z.div_mod p 32). lia.
    + rewrite list_lookup_insert_ne by lia.
      rewrite bool_decide_eq_false_2; [done|]. intros ->. done.
  - rewrite bool_decide_eq_false_2; [done|]. intros ->. lia.
Qed.

(** [setN] within the bitmap succeeds and sets just its range. *)
Lemma setN_spec (n : nat) : forall bits p,
  0 <= p -> p + Z.of_nat n <= 32 * glen bits ->
  exists bits',
    setN bits p n = Some bits' /\ glen bits' = glen bits /\
    forall q,
      IsPushData bits' q
      = bool_decide (p <= q < p + Z.of_nat n) || IsPushData bits q.
Proof.
  induction n as [|n IH]; intros bits p Hp Hroom; cbn [setN].
  - exists bits. repeat split. intros q.
    rewrite bool_decide_eq_false_2; [done | lia].
  - destruct (set1_spec bits p) as (b1 & -> & Hlen1 & Hb1); [lia|].
    cbn [mbind option_bind].
    destruct (IH b1 (p + 1)) as (b2 & -> & Hlen2 & Hb2); [lia | lia |].
    exists b2. split; [done|]. split; [lia|].
    intros q. rewrite Hb2, Hb1, orb_assoc. f_equal.
    repeat case_bool_decide; try done; lia.
Qed.

(** A scan step by step, from the cursor's point of view. *)
Lemma pushdata_from_end code pc q :
  0 <= pc -> glen code <= pc -> ~ pushdata_from code pc q.
Proof.
  intros Hpc Hend (pc' & op & Hc & Hop & _).
  assert (Hnone : gidx code pc = None).
  { unfold gidx. destruct (decide _); [|done].
    apply lookup_ge_None. unfold glen in *. lia. }
  destruct Hc; congruence.
Qed.

Lemma pushdata_from_step code pc op q :
  gidx code pc = Some op ->
  pushdata_from code pc q <->
  pc < q <= pc + immediates op \/
  pushdata_from code (pc + 1 + immediates op) q.
Proof.
  intros Hop. split.
  - intros (pc' & op' & Hc & Hop' & Hq). destruct Hc as [pc|pc o pc' Ho Hc].
    + left. congruence.
    + right. assert (o = op) as -> by congruence. by exists pc', op'.
  - intros [Hq|(pc' & op' & Hc & Hop' & Hq)].
    + exists pc, op. split; [constructor | done].
    + exists pc', op'. split; [by econstructor | done].
Qed.

(** More fuel than the code has bytes left changes nothing. *)
Lemma codeBitvecInternal_fuel code (fuel : nat) : forall pc bits,
  glen code - pc <= Z.of_nat fuel ->
  codeBitvecInternal (S fuel) code pc bits
  = codeBitvecInternal fuel code pc bits.
Proof.
  induction fuel as [|fuel IH]; intros pc bits Hfuel.
  - cbn [codeBitvecInternal]. destruct (decide _); [lia | done].
  - change (codeBitvecInternal (S (S fuel)) code pc bits) with
      (if decide (pc < glen code) then
         op ← gidx code pc;
         let n := immediates op in
         if decide (0 < n) then
           bits' ← setN bits (pc + 1) (Z.to_nat n);
           codeBitvecInternal (S fuel) code (pc + 1 + n) bits'
         else codeBitvecInternal (S fuel) code (pc + 1) bits
       else Some bits).
    cbn [codeBitvecInternal].
    destruct (decide _); [|done].
    destruct (gidx code pc) as [op|]; [|done]. cbn [mbind option_bind].
    pose proof (immediates_range op).
    destruct (decide _).
    + destruct (setN _ _ _) as [b|]; [|done]. cbn [mbind option_bind].
      apply IH. lia.
    + apply IH. lia.
Qed.

Lemma codeBitvecInternal_more_fuel code (k : nat) : forall fuel pc bits,
  glen code - pc <= Z.of_nat fuel ->
  codeBitvecInternal (k + fuel) code pc bits
  = codeBitvecInternal fuel code pc bits.
Proof.
  induction k as [|k IH]; intros fuel pc bits Hfuel; [done|].
  cbn [Nat.add]. rewrite codeBitvecInternal_fuel by lia. by apply IH.
Qed.

(** The scan never leaves a bitmap with 32 positions of room past the
    code, and it marks exactly the immediates it jumps over. *)
Lemma codeBitvecInternal_spec code (fuel : nat) : forall pc bits,
  0 <= pc -> glen code - pc <= Z.of_nat fuel ->
  glen code + 32 <= 32 * glen bits ->
  exists bits',
    codeBitvecInternal fuel code pc bits = Some bits' /\
    glen bits' = glen bits /\
    forall q,
      IsPushData bits' q = true <->
      IsPushData bits q = true \/ pushdata_from code pc q.
Proof.
  induction fuel as [|fuel IH]; intros pc bits Hpc Hfuel Hroom.
  - exists bits. repeat split; [tauto|].
    intros [H|H]; [done|]. exfalso. revert H. apply pushdata_from_end; lia.
  - cbn [codeBitvecInternal]. destruct (decide _) as [Hin|Hout].
    + destruct (lookup_lt_is_Some_2 code (Z.to_nat pc)) as [op Hop];
        [unfold glen in *; lia|].
      assert (Hop' : gidx code pc = Some op).
      { unfold gidx. by destruct (decide _); [|lia]. }
      rewrite Hop'; cbn [mbind option_bind].
      pose proof (immediates_range op) as Himm.
      destruct (decide _) as [Hpush|Hnot].
      * destruct (setN_spec (Z.to_nat (immediates op)) bits (pc + 1))
          as (b1 & -> & Hlen1 & Hb1); [lia | lia |].
        cbn [mbind option_bind].
        destruct (IH (pc + 1 + immediates op) b1) as (b2 & -> & Hlen2 & Hb2);
          [lia | lia | lia |].
        exists b2. split; [done|]. split; [lia|].
        intros q. rewrite Hb2, Hb1, (pushdata_from_step code pc op q Hop').
        rewrite orb_true_iff, bool_decide_eq_true. intuition lia.
      * destruct (IH (pc + 1) bits) as (b2 & -> & Hlen2 & Hb2);
          [lia | lia | lia |].
        exists b2. split; [done|]. split; [done|].
        intros q. rewrite Hb2, (pushdata_from_step code pc op q Hop').
        replace (immediates op) with 0 by lia.
        rewrite !Z.add_0_r. intuition lia.
    + exists bits. repeat split; [tauto|].
      intros [H|H]; [done|]. exfalso. revert H. apply pushdata_from_end; lia.
Qed.

Lemma IsPushData_zeros (n : nat) q : IsPushData (replicate n 0) q = false.
Proof.
  unfold IsPushData. destruct (gidx _ _) as [w|] eqn:E; [|done].
  unfold gidx in E. destruct (decide _); [|done].
  apply lookup_replicate in E as [-> _]. apply Z.testbit_0_l.
Qed.

(** [newCodeBitVec] returns a bitmap of [len(code)/32 + 2] words whose set
    bits are the immediates of the pushes the scan decodes. *)
Lemma newCodeBitVec_spec code :
  exists bv,
    newCodeBitVec code = Some bv /\
    glen bv = glen code / 32 + 2 /\
    forall q, IsPushData bv q = true <-> pushdata code q.
Proof.
  assert (Hdiv : 0 <= glen code / 32)
    by (apply Z.div_pos; [apply glen_nonneg | lia]).
  assert (Hwords : glen (replicate (Z.to_nat (glen code / 32 + 2)) 0)
                   = glen code / 32 + 2).
  { unfold glen at 1. rewrite length_replicate. lia. }
  unfold newCodeBitVec.
  destruct (codeBitvecInternal_spec code (length code) 0
              (replicate (Z.to_nat (glen code / 32 + 2)) 0))
    as (bv & -> & Hlen & Hbv).
  - lia.
  - unfold glen. lia.
  - rewrite Hwords. pose proof (Z.div_mod (glen code) 32).
    pose proof (Z.mod_pos_bound (glen code) 32). lia.
  - exists bv. split; [done|]. split; [lia|].
    intros q. rewrite Hbv, IsPushData_zeros. unfold pushdata.
    intuition discriminate.
Qed.


(** A bit pattern checked position by position holds at every position. *)
Lemma bits_are_sound bits f :
  bits_are bits f = true ->
  (forall q, q < 0 \/ 32 * glen bits <= q -> f q = false) ->
  forall q, IsPushData bits q = f q.
Proof.
  intros Hall Hout q.
  destruct (decide (0 <= q < 32 * glen bits)) as [Hin|Hnot].
  - unfold bits_are in Hall. rewrite forallb_forall in Hall.
    assert (Hq : In q (positions bits)).
    { apply list_elem_of_In. unfold positions. apply elem_of_seqZ. lia. }
    apply Hall in Hq. by apply bool_decide_eq_true in Hq.
  - rewrite Hout by lia.
    destruct (decide (q < 0)); [by apply IsPushData_neg|].
    apply IsPushData_past. lia.
Qed.

(** The model reproduces every vector of [TestBitvec]. *)
Lemma TestBitvec_passes : TestBitvec = true.
Proof. vm_compute. reflexivity. Qed.

(** C6: [newCodeBitVec] returns on every code buffer, with any number of
    loop iterations beyond the code length allowed, and the bitmap has
    [len(code)/32 + 2] words, so at least two; on the empty buffer it is
    two zero words. *)
Theorem newCodeBitVec_total_two_words :
  (forall code, exists bv,
     newCodeBitVec code = Some bv /\
     glen bv = glen code / 32 + 2 /\
     2 <= glen bv /\
     forall k : nat,
       codeBitvecInternal (k + length code) code 0
         (replicate (Z.to_nat (glen code / 32 + 2)) 0) = Some bv) /\
  newCodeBitVec [] = Some [0; 0].
Proof.
  split; [|reflexivity].
  intros code. destruct (newCodeBitVec_spec code) as (bv & Hbv & Hlen & _).
  exists bv. split; [done|]. split; [done|]. split.
  - assert (0 <= glen code / 32)
      by (apply Z.div_pos; [apply glen_nonneg | lia]). lia.
  - intros k. rewrite codeBitvecInternal_more_fuel; [done|].
    unfold glen. lia.
Qed.

(** C2, as stated, fails: on the one-byte code [PUSH32] the bitmap has 32
    bits set, at positions 1 to 32, all of them past the end of the
    buffer. *)
Lemma push32_bits_past_buffer_counterexample :
  newCodeBitVec [PUSH32] = Some [0xfffffffe; 0x1] /\
  glen [PUSH32] <= 1 /\
  IsPushData [0xfffffffe; 0x1] 1 = true /\
  length (List.filter (IsPushData [0xfffffffe; 0x1])
            (positions [0xfffffffe; 0x1])) = 32%nat.
Proof. repeat split; vm_compute; congruence. Qed.

(** C2, amended: the build returns on every code buffer, no store falling
    outside the bitmap; an instruction that the scan decodes at [p] with
    [n] immediates marks the bits [p+1 .. p+n] whether or not those
    positions lie within the buffer, and no other bit is set.  On the
    one-byte code [PUSH32] exactly the 32 bits 1 to 32 are set. *)
Theorem push_marks_every_immediate :
  (forall code, exists bv,
     newCodeBitVec code = Some bv /\
     (forall q, IsPushData bv q = true <-> pushdata code q) /\
     (forall p op q,
        cursor code 0 p -> gidx code p = Some op ->
        p < q <= p + immediates op -> IsPushData bv q = true)) /\
  newCodeBitVec [PUSH32] = Some [0xfffffffe; 0x1] /\
  (forall q, IsPushData [0xfffffffe; 0x1] q = bool_decide (1 <= q <= 32)).
Proof.
  split; [|split; [reflexivity|]].
  - intros code. destruct (newCodeBitVec_spec code) as (bv & Hbv & _ & Hq).
    exists bv. split; [done|]. split; [done|].
    intros p op q Hc Hop Hr. apply Hq. by exists p, op.
  - apply bits_are_sound; [by vm_compute|].
    intros q Hq. apply bool_decide_eq_false_2.
    unfold glen in Hq; cbn in Hq. lia.
Qed.

Lemma push_marks_every_immediate_witness :
  cursor [PUSH32] 0 0 /\ gidx [PUSH32] 0 = Some PUSH32 /\
  0 < 32 <= 0 + immediates PUSH32 /\
  exists bv, newCodeBitVec [PUSH32] = Some bv /\ IsPushData bv 32 = true.
Proof.
  assert (H1 : cursor [PUSH32] 0 0) by constructor.
  assert (H2 : gidx [PUSH32] 0 = Some PUSH32) by reflexivity.
  assert (H3 : 0 < 32 <= 0 + immediates PUSH32)
    by (cbv; split; [reflexivity | discriminate]).
  split; [exact H1|]. split; [exact H2|]. split; [exact H3|].
  destruct (proj1 push_marks_every_immediate [PUSH32]) as (bv & E & _ & M).
  exists bv. split; [exact E | exact (M 0 PUSH32 32 H1 H2 H3)].
Defined.

(** C4, as stated, fails: on four consecutive [PUSH1] bytes bits 5 and 7
    are clear. *)
Lemma four_push1_bits_5_7_counterexample :
  exists bv,
    newCodeBitVec [PUSH1; PUSH1; PUSH1; PUSH1] = Some bv /\
    IsPushData bv 5 = false /\ IsPushData bv 7 = false.
Proof. exists [0xa; 0]. repeat split. Qed.

(** C4, amended: on the four-byte code of four consecutive [PUSH1] bytes
    the bitmap is the vector of [TestBitvec], in which exactly bits 1 and
    3 are set. *)
Theorem four_push1_bits_1_3 :
  newCodeBitVec [PUSH1; PUSH1; PUSH1; PUSH1] = Some [0xa; 0] /\
  (forall q, IsPushData [0xa; 0] q = true <-> q = 1 \/ q = 3).
Proof.
  split; [reflexivity|]. intros q.
  rewrite (bits_are_sound [0xa; 0] (fun q => bool_decide (q = 1 \/ q = 3))).
  - apply bool_decide_eq_true.
  - by vm_compute.
  - intros q' Hq. apply bool_decide_eq_false_2.
    unfold glen in Hq; cbn in Hq. lia.
Qed.




End AnalysisFacts.

(** ** The batched calls *)

Module EthAPIFacts.
Import EthAPI EthAPISpec.

Section WithWorld.
Context {W : World}.

(** What [runs] says about the branches [callLoop] takes. *)
Lemma runs_Some header arg state gp a result :
  runs header arg state gp = Some (a, result) ->
  exists msg,
    ToMessage arg header = inl msg /\ is_Some (To msg) /\
    GetEVM msg state header = None /\
    a = ApplyMessage msg state gp /\ vmError a = None /\
    outcome a = inl result.
Proof.
  unfold runs. destruct (ToMessage arg header) as [msg|]; [|done].
  destruct (To msg) as [to|] eqn:Et; [|done].
  destruct (GetEVM msg state header) eqn:Eg; [done|]. cbn zeta.
  destruct (vmError _) eqn:Ev; [done|].
  destruct (outcome _) eqn:Eo; [|done].
  intros [= <- <-]. exists msg.
  repeat split; by (assumption || reflexivity || eexists).
Qed.

(** The loop, entered at index [i] with room for the calls still to run,
    runs them all: it keeps the slots below [i] and fills slot [i + k] from
    call [k] applied to the state its predecessors left. *)
Lemma callLoop_spec header (rest : list TransactionArgs) :
  forall i results state gp,
    0 <= i -> glen results = i + glen rest ->
    is_Some (before header rest (length rest) state gp) ->
    exists results',
      callLoop header (i + glen rest) i rest state gp results
      = Some (Some results', None) /\
      length results' = length results /\
      (forall k, (k < Z.to_nat i)%nat -> results' !! k = results !! k) /\
      forall k arg, rest !! k = Some arg ->
        exists st gp' a result,
          before header rest k state gp = Some (st, gp') /\
          runs header arg st gp' = Some (a, result) /\
          results' !! (Z.to_nat i + k)%nat = Some (resultOf result a).
Proof.
  induction rest as [|arg rest IH]; intros i results state gp Hi Hlen Hrun.
  - exists results. cbn [callLoop].
    split; [done|]. split; [done|]. split; [done|]. intros k arg [=].
  - cbn [length before] in Hrun.
    destruct (runs header arg state gp) as [[a result]|] eqn:Ea;
      [|by destruct Hrun].
    cbn [mbind option_bind] in Hrun.
    destruct (runs_Some _ _ _ _ _ _ Ea)
      as (msg & Hmsg & [to Hto] & Hevm & Ha & Hvm & Hout).
    cbn [callLoop]. rewrite Hmsg, Hto, Hevm. cbn zeta.
    rewrite <- Ha, Hvm, Hout.
    assert (Hglen : glen (arg :: rest) = 1 + glen rest)
      by (unfold glen; cbn [length]; lia).
    pose proof (glen_nonneg rest) as Hnn.
    rewrite gstore_in by lia.
    cbn [mbind option_bind].
    set (results1 := <[Z.to_nat i := resultOf result a]> results).
    set (state' := if decide (i < i + glen (arg :: rest) - 1)
                   then Commit (post_state a) else post_state a).
    assert (Hstate : rest <> [] -> state' = Commit (post_state a)).
    { intros Hne. subst state'. destruct (decide _) as [|Hn]; [done|].
      destruct rest; [done|]. unfold glen in *; cbn [length] in *. lia. }
    destruct (IH (i + 1) results1 state' (post_gas a))
      as (res & Hloop & Hl & Hkeep & Hfill).
    + lia.
    + subst results1. unfold glen in *. rewrite length_insert. lia.
    + destruct rest as [|arg' rest']; [by eexists|]. by rewrite Hstate.
    + exists res. split.
      { rewrite <- Hloop. f_equal. lia. }
      split. { rewrite Hl. subst results1. by rewrite length_insert. }
      split.
      { intros k Hk. rewrite Hkeep by lia. subst results1.
        apply list_lookup_insert_ne. lia. }
      intros [|k] arg0 Hk.
      * cbn in Hk. injection Hk as <-. exists state, gp, a, result.
        split; [done|]. split; [done|].
        rewrite Nat.add_0_r, Hkeep by lia. subst results1.
        apply list_lookup_insert_eq. unfold glen in *. lia.
      * cbn [lookup list_lookup] in Hk.
        destruct (Hfill k arg0 Hk) as (st & gp' & a' & r' & Hb & Hr & Hres).
        exists st, gp', a', r'. split; [|split; [done|]].
        -- cbn [before]. rewrite Ea; cbn [mbind option_bind].
           rewrite <- Hstate; [done|]. by destruct rest.
        -- rewrite <- Hres. f_equal. lia.
Qed.

(** C9: when no call of the batch stops it (every message converts and
    has a recipient; EVM set-up, [vmError] and [ApplyMessage] report no
    error), [DoMulticall] returns one result per call, whether or not
    earlier results record a failure, and call [i] is applied to the state
    and gas pool left by calls [0 .. i-1], each committed before the next
    begins. *)
Theorem DoMulticall_runs_every_call_on_shared_state
    (args : list TransactionArgs) (blockNrOrHash : BlockNumberOrHash)
    (overrides : StateOverride) (state0 state : StateDB) (header : Header) :
  StateAndHeaderByNumberOrHash blockNrOrHash = (Some state0, header, None) ->
  Apply overrides state0 = (state, None) ->
  is_Some (before header args (length args) state newGasPool) ->
  exists results,
    DoMulticall args blockNrOrHash overrides = Some (Some results, None) /\
    length results = length args /\
    forall i arg, args !! i = Some arg ->
      exists st gp a result,
        before header args i state newGasPool = Some (st, gp) /\
        runs header arg st gp = Some (a, result) /\
        results !! i = Some (resultOf result a) /\
        Err (resultOf result a) = ResultErr result.
Proof.
  intros Hstate Happly Hrun. unfold DoMulticall. rewrite Hstate, Happly.
  destruct (callLoop_spec header args 0
              (replicate (length args) zeroResult) state newGasPool)
    as (results & Hloop & Hlen & _ & Hfill).
  - lia.
  - unfold glen. rewrite length_replicate. lia.
  - done.
  - exists results. rewrite Z.add_0_l in Hloop. split; [done|].
    split; [by rewrite Hlen, length_replicate|].
    intros i arg Hi.
    destruct (Hfill i arg Hi) as (st & gp & a & result & Hb & Hr & Hres).
    exists st, gp, a, result. by repeat split.
Qed.

(** Results without a recorded failure leave [firstErr] as it is. *)
Lemma reportLoop_no_failure (rest : list Result) : forall i firstErr,
  Forall (fun r => Err r = None) rest ->
  reportLoop i rest firstErr = firstErr.
Proof.
  induction rest as [|r rest IH]; intros i firstErr Hall; [done|].
  apply Forall_cons in Hall as [Hr Hrest].
  cbn [reportLoop]. rewrite Hr. by apply IH.
Qed.

(** The error [Multicall] hands back is made from the last result that
    records a failure: an earlier one is overwritten. *)
Lemma reportLoop_last_failure (l1 l2 : list Result) (r : Result) err :
  forall i firstErr,
    Err r = Some err ->
    Forall (fun r => Err r = None) l2 ->
    reportLoop i (l1 ++ r :: l2) firstErr
    = Some (ErrCallReverted (i + glen l1 + 1)
              match UnpackRevert (Output r) with
              | inl reason => ErrReason err reason
              | inr _ => err
              end).
Proof.
  induction l1 as [|r1 l1 IH]; intros i firstErr Hr Hl2.
  - cbn [app reportLoop]. rewrite Hr.
    rewrite reportLoop_no_failure by done.
    do 2 f_equal. unfold glen; cbn [length]. lia.
  - cbn [app reportLoop].
    assert (Hglen : i + glen (r1 :: l1) + 1 = i + 1 + glen l1 + 1)
      by (unfold glen; cbn [length]; lia).
    rewrite Hglen. destruct (Err r1); by apply IH.
Qed.

End WithWorld.

End EthAPIFacts.

(** ** The batched calls in a concrete world *)

Module EthAPIExamples.
Import EthAPI EthAPISpec EthAPIFacts.

Lemma DoMulticall_runs_every_call_on_shared_state_witness :
  @StateAndHeaderByNumberOrHash demoWorld tt = (Some 100, tt, None) /\
  @Apply demoWorld tt 100 = (100, None) /\
  is_Some (@before demoWorld tt [-1; 5; 7] 3%nat 100 (2 ^ 64 - 1)) /\
  exists results,
    @DoMulticall demoWorld [-1; 5; 7] tt tt = Some (Some results, None) /\
    length results = 3%nat.
Proof.
  assert (H1 : @StateAndHeaderByNumberOrHash demoWorld tt
               = (Some 100, tt, None)) by reflexivity.
  assert (H2 : @Apply demoWorld tt 100 = (100, None)) by reflexivity.
  assert (H3 : is_Some (@before demoWorld tt [-1; 5; 7]
                          (length [-1; 5; 7]) 100 (@newGasPool demoWorld)))
    by (eexists; reflexivity).
  split; [exact H1|]. split; [exact H2|]. split; [exact H3|].
  destruct (@DoMulticall_runs_every_call_on_shared_state demoWorld
              [-1; 5; 7] tt tt 100 100 tt H1 H2 H3) as (results & E & L & _).
  exists results. split; [exact E | exact L].
Defined.

(** In the demo world the first call of [-1; 5; 7] reverts, and the later
    calls still run and return the balance they find: 100, then 105. *)
Example DoMulticall_later_calls_see_earlier_effects :
  (fun r => (Output r, Err r)) <$>
    default [] (default (None, None)
                  (@DoMulticall demoWorld [-1; 5; 7] tt tt)).1
  = [([1], Some (ErrOpaque "execution reverted"));
     ([100], None); ([105], None)].
Proof. reflexivity. Qed.

(** C3 fails on the code: with two failing calls, [Multicall] returns
    every result and an error naming call 2 and its reason; the first
    failing call, call 1 with reason "insufficient balance", is not the
    one reported. *)
Theorem Multicall_reports_last_failing_call :
  exists results,
    @Multicall demoWorld [-1; -2] tt tt
    = Some (Some results,
            Some (ErrCallReverted 2
                    (ErrReason (ErrOpaque "execution reverted")
                       "not owner"))) /\
    Err <$> results
    = [Some (ErrOpaque "execution reverted");
       Some (ErrOpaque "execution reverted")] /\
    Output <$> results = [[1]; [2]] /\
    @UnpackRevert demoWorld [1] = inl "insufficient balance"%string.
Proof. eexists. repeat split. Qed.

End EthAPIExamples.

(** ** More on the stack: bounds, composition and last-in-first-out *)

Module StackMore.
Import Stack StackSpec StackSeq StackFacts.

Lemma gidx_neg {A} (s : list A) i : i < 0 -> gidx s i = None.
Proof. intros Hi. unfold gidx. destruct (decide _); [lia | done]. Qed.

Lemma gaddr_out {A} (s : list A) i :
  i < 0 \/ glen s <= i -> gaddr s i = None.
Proof. intros Hi. unfold gaddr. destruct (decide _); [lia | done]. Qed.

Lemma pushes_data xs : forall st, pushes xs st = mkStack (data st ++ xs).
Proof.
  unfold pushes. induction xs as [|x xs IH]; intros [d]; cbn [foldl data].
  - by rewrite app_nil_r.
  - rewrite IH. unfold push; cbn [data]. by rewrite <- app_assoc.
Qed.

(** Last in, first out: after pushing the values of [xs] in turn, as many
    single pops return them in the reverse order and give the stack
    back. *)
Theorem pushes_then_pops (xs : list uint256) (st : Stack) :
  pops (length xs) (pushes xs st) = Some (rev xs, st).
Proof. rewrite pushes_data, pops_top. by destruct st. Qed.

(** A read below slot 0 panics, and with it the whole operation. *)
Ltac underflow :=
  cbn [mbind option_bind];
  match goal with
  | |- context [gidx ?s ?i] => rewrite (gidx_neg s i) by len_arith
  | |- context [gaddr ?s ?i] => rewrite (gaddr_out s i) by (left; len_arith)
  end;
  reflexivity.

Lemma pop_empty st : len st < 1 -> pop st = None.
Proof. intros H. unfold pop. underflow. Qed.

Lemma popN_short n st : 2 <= n <= 4 -> len st < n -> popN n st = None.
Proof.
  intros Hn H. arity Hn; cbn [popN].
  - unfold pop2. underflow.
  - unfold pop3. underflow.
  - unfold pop4. underflow.
Qed.

Lemma popNPeek_short k st :
  k = 1 \/ k = 2 \/ k = 3 \/ k = 5 \/ k = 6 -> len st < k + 1 ->
  popNPeek k st = None.
Proof.
  intros Hk H.
  repeat (destruct Hk as [->|Hk]); try (revert Hk; intros ->); cbn [popNPeek].
  - unfold popPeek. underflow.
  - unfold pop2Peek. underflow.
  - unfold pop3Peek. underflow.
  - unfold pop5Peek. underflow.
  - unfold pop6Peek. underflow.
Qed.

Lemma not_Some_None {A} (m : option A) : m = None -> ~ is_Some m.
Proof. intros -> [x Hx]. discriminate. Qed.

(** The pops check nothing themselves and rely on Go's bounds checks:
    [pop] returns exactly on a non-empty stack and the N-ary pop (N in
    2..4) exactly on a stack of at least N elements; on a shorter stack
    they panic. *)
Theorem pop_returns_iff_deep_enough (st : Stack) :
  (is_Some (pop st) <-> 1 <= len st) /\
  (forall n, 2 <= n <= 4 -> (is_Some (popN n st) <-> n <= len st)).
Proof.
  split; [|intros n Hn]; split.
  - intros H. destruct (Z_lt_le_dec (len st) 1) as [Hs|]; [|done].
    by apply pop_empty, not_Some_None in Hs.
  - intros H. destruct (stack_split 1 st) as (r & xs & -> & Hxs); [lia|].
    destruct xs as [|a [|]]; try (unfold glen in Hxs; cbn in Hxs; lia).
    rewrite pop_top. by eexists.
  - intros H. destruct (Z_lt_le_dec (len st) n) as [Hs|]; [|done].
    by apply (popN_short n st Hn), not_Some_None in Hs.
  - intros H. destruct (stack_split n st) as (r & xs & -> & Hxs); [lia|].
    rewrite (popN_top n r xs Hn Hxs). by eexists.
Qed.

Lemma pop_returns_iff_deep_enough_witness :
  2 <= 3 <= 4 /\
  (is_Some (popN 3 (mkStack [1; 2])) <-> 3 <= len (mkStack [1; 2])).
Proof.
  assert (H : 2 <= 3 <= 4) by lia.
  split; [exact H|].
  exact (proj2 (pop_returns_iff_deep_enough (mkStack [1; 2])) 3 H).
Defined.

(** A pop-and-peek of arity [k] needs [k + 1] elements, one more than it
    pops: it returns exactly on such a stack, and on a stack of exactly [k]
    elements it panics although the [k] pops alone would succeed. *)
Theorem popNPeek_returns_iff_one_more (k : Z) (st : Stack) :
  k = 1 \/ k = 2 \/ k = 3 \/ k = 5 \/ k = 6 ->
  (is_Some (popNPeek k st) <-> k + 1 <= len st) /\
  (len st = k -> popNPeek k st = None /\ is_Some (pops (Z.to_nat k) st)).
Proof.
  intros Hk. split; [split|].
  - intros H. destruct (Z_lt_le_dec (len st) (k + 1)) as [Hs|]; [|done].
    by apply (popNPeek_short k st Hk), not_Some_None in Hs.
  - intros H.
    destruct (stack_split (k + 1) st) as (r & ys & -> & Hys); [lia|].
    destruct ys as [|y xs]; [unfold glen in Hys; cbn in Hys; lia|].
    assert (Hxs : glen xs = k) by (unfold glen in *; cbn [length] in Hys; lia).
    rewrite (cons_middle y r xs), app_assoc.
    rewrite (popNPeek_top k r y xs Hk Hxs). by eexists.
  - intros H. split; [apply popNPeek_short; [done | lia]|].
    destruct (stack_split k st) as (r & xs & -> & Hxs); [lia|].
    replace (Z.to_nat k) with (length xs) by (unfold glen in Hxs; lia).
    rewrite pops_top. by eexists.
Qed.

Lemma popNPeek_returns_iff_one_more_witness :
  (2 = 1 \/ 2 = 2 \/ 2 = 3 \/ 2 = 5 \/ 2 = 6) /\
  len (mkStack [8; 9]) = 2 /\
  popNPeek 2 (mkStack [8; 9]) = None /\
  is_Some (pops 2 (mkStack [8; 9])).
Proof.
  assert (H1 : 2 = 1 \/ 2 = 2 \/ 2 = 3 \/ 2 = 5 \/ 2 = 6)
    by (right; left; reflexivity).
  assert (H2 : len (mkStack [8; 9]) = 2) by reflexivity.
  split; [exact H1|]. split; [exact H2|].
  exact (proj2 (popNPeek_returns_iff_one_more 2 (mkStack [8; 9]) H1) H2).
Defined.

Lemma pops_short (n : nat) : forall st,
  len st < Z.of_nat n -> pops n st = None.
Proof.
  induction n as [|n IH]; intros st Hst.
  - pose proof (glen_nonneg (data st)). unfold len in Hst. lia.
  - cbn [pops]. destruct (Z_lt_le_dec (len st) 1) as [Hs|Hs].
    + by rewrite pop_empty.
    + destruct (stack_split 1 st) as (r & xs & -> & Hxs); [lia|].
      destruct xs as [|a [|]]; try (unfold glen in Hxs; cbn in Hxs; lia).
      rewrite pop_top; cbn [mbind option_bind].
      rewrite IH; [done|]. len_arith.
Qed.

(** A pop-and-peek of arity [k] is [k] single pops followed by [peek], on
    every stack: the same values in the same order, the same pointer, the
    same stack left, and a panic on one side whenever on the other. *)
Theorem popNPeek_is_pops_then_peek (k : Z) (st : Stack) :
  k = 1 \/ k = 2 \/ k = 3 \/ k = 5 \/ k = 6 ->
  popNPeek k st
  = '(xs, st') ← pops (Z.to_nat k) st; p ← peek st'; Some (xs, p, st').
Proof.
  intros Hk. assert (Hk0 : 1 <= k) by lia.
  destruct (Z_lt_le_dec (len st) (k + 1)) as [Hs|Hs].
  - rewrite popNPeek_short by done.
    destruct (Z_lt_le_dec (len st) k) as [Hs'|Hs'].
    + rewrite pops_short by lia. reflexivity.
    + destruct (stack_split k st) as (r & xs & -> & Hxs); [lia|].
      replace (Z.to_nat k) with (length xs) by (unfold glen in Hxs; lia).
      rewrite pops_top; cbn [mbind option_bind].
      assert (r = []) as ->.
      { destruct r; [done|]. len_arith. }
      reflexivity.
  - destruct (stack_split (k + 1) st) as (r & ys & -> & Hys); [lia|].
    destruct ys as [|y xs]; [unfold glen in Hys; cbn in Hys; lia|].
    assert (Hxs : glen xs = k) by (unfold glen in *; cbn [length] in Hys; lia).
    rewrite (cons_middle y r xs), app_assoc.
    rewrite (popNPeek_top k r y xs Hk Hxs).
    replace (Z.to_nat k) with (length xs) by (unfold glen in Hxs; lia).
    rewrite pops_top; cbn [mbind option_bind].
    by rewrite peek_top.
Qed.

Lemma popNPeek_is_pops_then_peek_witness :
  (3 = 1 \/ 3 = 2 \/ 3 = 3 \/ 3 = 5 \/ 3 = 6) /\
  popNPeek 3 (mkStack [5; 6; 7; 8])
  = '(xs, st') ← pops 3 (mkStack [5; 6; 7; 8]);
    p ← peek st'; Some (xs, p, st').
Proof.
  assert (H : 3 = 1 \/ 3 = 2 \/ 3 = 3 \/ 3 = 5 \/ 3 = 6)
    by (right; right; left; reflexivity).
  split; [exact H|].
  exact (popNPeek_is_pops_then_peek 3 (mkStack [5; 6; 7; 8]) H).
Defined.

(** What one swap does to the backing slice. *)
Lemma swapBody_exchange (n : Z) (d : list uint256) :
  1 <= n -> n + 1 <= glen d ->
  exists x y,
    d !! Z.to_nat (glen d - 1 - n) = Some x /\
    d !! Z.to_nat (glen d - 1) = Some y /\
    swapBody n (mkStack d)
    = Some (mkStack (<[Z.to_nat (glen d - 1) := x]>
                       (<[Z.to_nat (glen d - 1 - n) := y]> d))).
Proof.
  intros Hn Hlen.
  set (i := Z.to_nat (glen d - 1 - n)). set (j := Z.to_nat (glen d - 1)).
  assert (Hi : glen d - (n + 1) = Z.of_nat i) by (unfold glen in *; lia).
  assert (Hj : Z.of_nat i + n = Z.of_nat j) by (unfold glen in *; lia).
  assert (Hjd : (j < length d)%nat) by (unfold glen in *; lia).
  assert (Hid : (i < length d)%nat) by (unfold glen in *; lia).
  destruct (lookup_lt_is_Some_2 d i Hid) as [x Hx].
  destruct (lookup_lt_is_Some_2 d j Hjd) as [y Hy].
  exists x, y. split; [done|]. split; [done|].
  unfold swapBody, len; cbn [data]. rewrite Hi, Z.add_0_r, Hj.
  destruct (decide _) as [_|]; [|unfold glen in *; lia].
  rewrite !gidx_nat, Hx, Hy; cbn [mbind option_bind].
  rewrite gstore_nat by done; cbn [mbind option_bind].
  by rewrite gstore_nat by (by rewrite length_insert).
Qed.

Lemma swapBody_short (n : Z) (st : Stack) :
  len st < n + 1 -> swapBody n st = None.
Proof.
  intros H. unfold swapBody. cbn zeta. destruct (decide _); [lia | done].
Qed.

Lemma swapN_swapBody n : 1 <= n <= 16 -> swapN n = swapBody n.
Proof. intros Hn. arity Hn; reflexivity. Qed.

(** [swapN] (n in 1..16) returns exactly on a stack of at least n+1
    elements.  It then exchanges the top with the element [n] below it and
    touches nothing else: the length and every other slot are as before. *)
Theorem swapN_exchanges_top_and_nth (n : Z) (st : Stack) :
  1 <= n <= 16 ->
  (is_Some (swapN n st) <-> n + 1 <= len st) /\
  (forall st', swapN n st = Some st' ->
     len st' = len st /\
     gidx (data st') (len st - 1) = gidx (data st) (len st - 1 - n) /\
     gidx (data st') (len st - 1 - n) = gidx (data st) (len st - 1) /\
     (forall i, i <> len st - 1 -> i <> len st - 1 - n ->
        gidx (data st') i = gidx (data st) i)).
Proof.
  intros Hn. rewrite (swapN_swapBody n Hn).
  destruct (Z_lt_le_dec (len st) (n + 1)) as [Hs|Hs].
  { rewrite swapBody_short by done. split.
    - split; [by intros [? [=]] | lia].
    - by intros st' [=]. }
  destruct st as [d]. unfold len in *; cbn [data] in *.
  destruct (swapBody_exchange n d) as (x & y & Hx & Hy & ->); [lia | done |].
  split; [split; [done | by eexists]|].
  intros st' [= <-]; cbn [data].
  assert (Hij : Z.to_nat (glen d - 1) <> Z.to_nat (glen d - 1 - n))
    by (unfold glen in *; lia).
  assert (Hj : (Z.to_nat (glen d - 1) < length d)%nat)
    by (unfold glen in *; lia).
  assert (Hi : (Z.to_nat (glen d - 1 - n) < length d)%nat)
    by (unfold glen in *; lia).
  split; [unfold glen; by rewrite !length_insert|].
  unfold gidx. repeat split.
  - repeat (destruct (decide _); [|unfold glen in *; lia]).
    rewrite list_lookup_insert_eq by (by rewrite length_insert). done.
  - repeat (destruct (decide _); [|unfold glen in *; lia]).
    rewrite list_lookup_insert_ne by done.
    rewrite list_lookup_insert_eq by done. done.
  - intros k Hk1 Hk2. destruct (decide _); [|done].
    rewrite !list_lookup_insert_ne by lia. done.
Qed.

Lemma swapN_exchanges_top_and_nth_witness :
  1 <= 2 <= 16 /\
  swapN 2 (mkStack [1; 2; 3; 4]) = Some (mkStack [1; 4; 3; 2]) /\
  len (mkStack [1; 4; 3; 2]) = len (mkStack [1; 2; 3; 4]).
Proof.
  assert (H1 : 1 <= 2 <= 16) by lia.
  assert (H2 : swapN 2 (mkStack [1; 2; 3; 4]) = Some (mkStack [1; 4; 3; 2]))
    by reflexivity.
  split; [exact H1|]. split; [exact H2|].
  exact (proj1 (proj2 (swapN_exchanges_top_and_nth 2 _ H1) _ H2)).
Defined.

Lemma gidx_in {A} (s : list A) i :
  0 <= i < glen s -> exists v, gidx s i = Some v /\ s !! Z.to_nat i = Some v.
Proof.
  intros Hi. destruct (lookup_lt_is_Some_2 s (Z.to_nat i)) as [v Hv];
    [unfold glen in *; lia|].
  exists v. split; [|done]. unfold gidx. by destruct (decide _); [|lia].
Qed.

(** [dup(n)] returns exactly when [1 <= n <= len]: [dup(0)] and a [dup]
    past the bottom panic.  When it returns it has pushed a copy of the
    element [n] from the top (the top being 1) onto the unchanged stack, so
    a [pop] gives that element and the stack back. *)
Theorem dup_copies_nth_from_top (n : Z) (st : Stack) :
  (is_Some (dup n st) <-> 1 <= n <= len st) /\
  (forall st', dup n st = Some st' ->
     exists v,
       gidx (data st) (len st - n) = Some v /\
       st' = push v st /\ len st' = len st + 1 /\
       pop st' = Some (v, st)).
Proof.
  destruct st as [d]. unfold dup, len, load, ptr, uint256 in *; cbn [data].
  destruct (decide (1 <= n <= glen d)) as [Hn|Hn].
  - rewrite gaddr_in by lia. cbn [mbind option_bind].
    destruct (gidx_in d (glen d - n)) as (v & Hv & ->); [lia|].
    cbn [mbind option_bind]. split; [split; [done | by eexists]|].
    intros st' [= <-]. exists v. split; [done|]. split; [done|].
    unfold push; cbn [data]. split; [len_arith | apply pop_top].
  - rewrite gaddr_out by lia. split.
    + split; [by intros [? [=]] | done].
    + by intros st' [=].
Qed.

(** [Back(n)] returns exactly when [0 <= n < len], and the slot it points
    to holds the value that the last of [n + 1] single pops returns. *)
Theorem Back_points_to_nth_pop (n : Z) (st : Stack) :
  (is_Some (Back n st) <-> 0 <= n < len st) /\
  (forall p, Back n st = Some p ->
     exists v xs st',
       load st p = Some v /\
       pops (Z.to_nat (n + 1)) st = Some (xs, st') /\
       last xs = Some v).
Proof.
  unfold Back.
  destruct (decide (0 <= n < len st)) as [Hn|Hn].
  - rewrite gaddr_in by (unfold len in *; lia).
    split; [split; [done | by eexists]|]. intros p [= <-].
    destruct (stack_split (n + 1) st) as (r & ys & -> & Hys); [lia|].
    destruct ys as [|y xs]; [unfold glen in Hys; cbn in Hys; lia|].
    exists y, (rev (y :: xs)), (mkStack r).
    replace (Z.to_nat (n + 1)) with (length (y :: xs))
      by (unfold glen in Hys; lia).
    rewrite pops_top. split; [|split; [done|]].
    + unfold load; cbn [data].
      replace (Z.to_nat _) with (length r) by len_arith.
      by rewrite list_lookup_middle.
    + cbn [rev]. by rewrite last_snoc.
  - rewrite gaddr_out by (unfold len in *; lia). split.
    + split; [by intros [? [=]] | done].
    + by intros p [=].
Qed.

Lemma dup_copies_nth_from_top_witness :
  dup 2 (mkStack [4; 5; 6]) = Some (mkStack [4; 5; 6; 5]) /\
  exists v,
    gidx [4; 5; 6] (3 - 2) = Some v /\
    pop (mkStack [4; 5; 6; 5]) = Some (v, mkStack [4; 5; 6]).
Proof.
  assert (H : dup 2 (mkStack [4; 5; 6]) = Some (mkStack [4; 5; 6; 5]))
    by reflexivity.
  split; [exact H|].
  destruct (proj2 (dup_copies_nth_from_top 2 (mkStack [4; 5; 6])) _ H)
    as (v & Hv & _ & _ & Hp).
  exists v. split; [exact Hv | exact Hp].
Defined.

Lemma Back_points_to_nth_pop_witness :
  Back 1 (mkStack [4; 5; 6]) = Some 1%nat /\
  exists v xs st',
    load (mkStack [4; 5; 6]) 1%nat = Some v /\
    pops 2 (mkStack [4; 5; 6]) = Some (xs, st') /\ last xs = Some v.
Proof.
  assert (H : Back 1 (mkStack [4; 5; 6]) = Some 1%nat) by reflexivity.
  split; [exact H|].
  exact (proj2 (Back_points_to_nth_pop 1 (mkStack [4; 5; 6])) _ H).
Defined.

End StackMore.

(** ** More on the batched calls: errors that stop a batch, and the error
    that [Multicall] reports *)

Module EthAPIMore.
Import EthAPI EthAPISpec EthAPIStops EthAPIFacts.

Section WithWorld.
Context {W : World}.

(** A call that stops the batch makes the loop return [(nil, err)]. *)
Lemma callLoop_stops header nargs i arg rest state gp results err :
  stops header arg state gp = Some err ->
  callLoop header nargs i (arg :: rest) state gp results
  = Some (None, Some err).
Proof.
  unfold stops. cbn [callLoop].
  destruct (ToMessage arg header) as [msg|e]; [|by intros [= ->]].
  destruct (To msg) as [to|]; [|done].
  destruct (GetEVM msg state header) as [e|]; [by intros [= ->]|].
  cbn zeta. destruct (vmError _) as [e|]; [by intros [= ->]|].
  destruct (outcome _) as [r|e]; [done | by intros [= ->]].
Qed.

Lemma callLoop_first_stop header (rest : list TransactionArgs) :
  forall (k : nat) i results state gp st gp' arg err,
    0 <= i -> glen results = i + glen rest ->
    before header rest k state gp = Some (st, gp') ->
    rest !! k = Some arg ->
    stops header arg st gp' = Some err ->
    callLoop header (i + glen rest) i rest state gp results
    = Some (None, Some err).
Proof.
  induction rest as [|arg0 rest IH];
    intros k i results state gp st gp' arg err Hi Hlen Hb Hk Hstop; [done|].
  destruct k as [|k].
  - cbn in Hb, Hk. injection Hb as <- <-. injection Hk as <-.
    by apply callLoop_stops.
  - cbn [before] in Hb. cbn [lookup list_lookup] in Hk.
    destruct (runs header arg0 state gp) as [[a result]|] eqn:Ea; [|done].
    cbn [mbind option_bind] in Hb.
    destruct (runs_Some _ _ _ _ _ _ Ea)
      as (msg & Hmsg & [to Hto] & Hevm & Ha & Hvm & Hout).
    cbn [callLoop]. rewrite Hmsg, Hto, Hevm. cbn zeta.
    rewrite <- Ha, Hvm, Hout.
    assert (Hglen : glen (arg0 :: rest) = 1 + glen rest)
      by (unfold glen; cbn [length]; lia).
    pose proof (glen_nonneg rest) as Hnn.
    rewrite gstore_in by lia. cbn [mbind option_bind].
    assert (Hne : 1 <= glen rest).
    { apply lookup_lt_Some in Hk. unfold glen. lia. }
    destruct (decide _) as [_|]; [|lia].
    replace (i + glen (arg0 :: rest)) with (i + 1 + glen rest) by lia.
    apply (IH k _ _ _ _ st gp' arg err); try done; [lia|].
    unfold glen in *. rewrite length_insert. lia.
Qed.

(** The first call that stops the batch with an error decides what
    [DoMulticall] returns: nil results, the results of the calls that ran
    before it included, and that call's error.  The calls before it ran,
    so each had a recipient; the stopping call either does not convert to
    a message or has a recipient and fails a later test. *)
Theorem DoMulticall_first_stop_discards_results
    (args : list TransactionArgs) (blockNrOrHash : BlockNumberOrHash)
    (overrides : StateOverride) (state0 state st : StateDB)
    (header : Header) (k : nat) (arg : TransactionArgs) (gp : GasPool)
    (err : error) :
  StateAndHeaderByNumberOrHash blockNrOrHash = (Some state0, header, None) ->
  Apply overrides state0 = (state, None) ->
  before header args k state newGasPool = Some (st, gp) ->
  args !! k = Some arg ->
  stops header arg st gp = Some err ->
  DoMulticall args blockNrOrHash overrides = Some (None, Some err) /\
  Multicall args blockNrOrHash overrides = Some (None, Some err).
Proof.
  intros Hstate Happly Hb Hk Hstop.
  assert (HD : DoMulticall args blockNrOrHash overrides
               = Some (None, Some err)).
  { unfold DoMulticall. rewrite Hstate, Happly.
    rewrite <- (Z.add_0_l (glen args)).
    apply (callLoop_first_stop header args k 0 _ _ _ st gp arg err);
      try done.
    unfold glen. rewrite length_replicate. lia. }
  split; [done|]. unfold Multicall. by rewrite HD.
Qed.

(** The loop gets as far as call [k] when the calls before it run. *)
Lemma callLoop_reaches header (rest : list TransactionArgs) :
  forall (k : nat) i results state gp st gp',
    0 <= i -> glen results = i + glen rest ->
    before header rest k state gp = Some (st, gp') ->
    (k < length rest)%nat ->
    exists results',
      glen results' = glen results /\
      callLoop header (i + glen rest) i rest state gp results
      = callLoop header (i + glen rest) (i + Z.of_nat k) (drop k rest)
          st gp' results'.
Proof.
  induction rest as [|arg0 rest IH];
    intros k i results state gp st gp' Hi Hlen Hb Hk; [cbn in Hk; lia|].
  destruct k as [|k].
  - cbn in Hb. injection Hb as <- <-. exists results.
    by rewrite Z.add_0_r, drop_0.
  - cbn [before] in Hb. cbn [length] in Hk.
    destruct (runs header arg0 state gp) as [[a result]|] eqn:Ea; [|done].
    cbn [mbind option_bind] in Hb.
    destruct (runs_Some _ _ _ _ _ _ Ea)
      as (msg & Hmsg & [to Hto] & Hevm & Ha & Hvm & Hout).
    cbn [callLoop drop]. rewrite Hmsg, Hto, Hevm. cbn zeta.
    rewrite <- Ha, Hvm, Hout.
    assert (Hglen : glen (arg0 :: rest) = 1 + glen rest)
      by (unfold glen; cbn [length]; lia).
    rewrite gstore_in by (pose proof (glen_nonneg rest); lia).
    cbn [mbind option_bind].
    destruct (decide _) as [_|]; [|unfold glen in *; lia].
    destruct (IH k (i + 1)
                (<[Z.to_nat i := resultOf result a]> results)
                (Commit (post_state a)) (post_gas a) st gp')
      as (results' & Hl & Hloop); try done; try lia.
    { unfold glen in *. rewrite length_insert. lia. }
    exists results'. split.
    + rewrite Hl. unfold glen. by rewrite length_insert.
    + replace (i + glen (arg0 :: rest)) with (i + 1 + glen rest) by lia.
      rewrite Hloop. f_equal. lia.
Qed.

(** A call without recipient, a contract creation, makes the batch panic:
    when the calls before call [k] run and the message of call [k]
    converts but has no [To], [DoMulticall] and [Multicall] do not return
    at all, neither results nor an error. *)
Theorem DoMulticall_panics_without_recipient
    (args : list TransactionArgs) (blockNrOrHash : BlockNumberOrHash)
    (overrides : StateOverride) (state0 state st : StateDB)
    (header : Header) (k : nat) (arg : TransactionArgs) (gp : GasPool)
    (msg : Message) :
  StateAndHeaderByNumberOrHash blockNrOrHash = (Some state0, header, None) ->
  Apply overrides state0 = (state, None) ->
  before header args k state newGasPool = Some (st, gp) ->
  args !! k = Some arg ->
  ToMessage arg header = inl msg ->
  To msg = None ->
  DoMulticall args blockNrOrHash overrides = None /\
  Multicall args blockNrOrHash overrides = None.
Proof.
  intros Hstate Happly Hb Hk Hmsg Hto.
  assert (HD : DoMulticall args blockNrOrHash overrides = None).
  { unfold DoMulticall. rewrite Hstate, Happly.
    rewrite <- (Z.add_0_l (glen args)).
    destruct (callLoop_reaches header args k 0
                (replicate (length args) zeroResult) state newGasPool st gp)
      as (results' & _ & ->); try done.
    - unfold glen. rewrite length_replicate. lia.
    - by apply lookup_lt_Some in Hk.
    - rewrite (drop_S _ _ _ Hk). cbn [callLoop]. by rewrite Hmsg, Hto. }
  split; [done|]. unfold Multicall. by rewrite HD.
Qed.

(** Once [firstErr] is set, the rest of the loop never clears it. *)
Lemma reportLoop_keeps_error (rest : list Result) : forall i e,
  is_Some (reportLoop i rest (Some e)).
Proof.
  induction rest as [|r rest IH]; intros i e; [by eexists|].
  cbn [reportLoop]. destruct (Err r); apply IH.
Qed.

Lemma reportLoop_None_iff (rest : list Result) : forall i,
  reportLoop i rest None = None <-> Forall (fun r => Err r = None) rest.
Proof.
  induction rest as [|r rest IH]; intros i; [done|].
  cbn [reportLoop]. rewrite Forall_cons. destruct (Err r) as [e|].
  - split; [|by intros [[=] _]].
    intros H. destruct (reportLoop_keeps_error rest (i + 1)
      (ErrCallReverted (i + 1)
         match UnpackRevert (Output r) with
         | inl reason => ErrReason e reason
         | inr _ => e
         end)) as [x Hx]. congruence.
  - rewrite IH. tauto.
Qed.

(** When [DoMulticall] returns results, [Multicall] returns the same
    results, and its error is nil exactly when no result records a
    failure. *)
Theorem Multicall_error_nil_iff_no_failure
    (args : list TransactionArgs) (blockNrOrHash : BlockNumberOrHash)
    (overrides : StateOverride) (results : list Result) :
  DoMulticall args blockNrOrHash overrides = Some (Some results, None) ->
  exists e,
    Multicall args blockNrOrHash overrides = Some (Some results, e) /\
    (e = None <-> Forall (fun r => Err r = None) results).
Proof.
  intros HD. unfold Multicall. rewrite HD; cbn [mbind option_bind default].
  eexists. split; [reflexivity|]. apply reportLoop_None_iff.
Qed.

(** When exactly one result records a failure, the error [Multicall]
    returns names that call, numbered from 1, and wraps its error: with
    the reason when [UnpackRevert] decodes the output, bare when it does
    not.  The results themselves are returned as [DoMulticall] made them,
    their [Err] without the reason. *)
Theorem Multicall_error_names_single_failure
    (args : list TransactionArgs) (blockNrOrHash : BlockNumberOrHash)
    (overrides : StateOverride) (l1 l2 : list Result) (r : Result)
    (err : error) :
  DoMulticall args blockNrOrHash overrides
  = Some (Some (l1 ++ r :: l2), None) ->
  Forall (fun r' => Err r' = None) l1 ->
  Err r = Some err ->
  Forall (fun r' => Err r' = None) l2 ->
  Multicall args blockNrOrHash overrides
  = Some (Some (l1 ++ r :: l2),
          Some (ErrCallReverted (glen l1 + 1)
                  match UnpackRevert (Output r) with
                  | inl reason => ErrReason err reason
                  | inr _ => err
                  end)).
Proof.
  intros HD _ Hr Hl2. unfold Multicall.
  rewrite HD; cbn [mbind option_bind default from_option id].
  by rewrite (reportLoop_last_failure l1 l2 r err 0 None Hr Hl2), Z.add_0_l.
Qed.

(** A backend that hands back no state makes [Multicall] return nil
    results and the backend's error as it is, also when that error is nil:
    no call is run and nothing is reported. *)
Theorem Multicall_without_state
    (args : list TransactionArgs) (blockNrOrHash : BlockNumberOrHash)
    (overrides : StateOverride) (header : Header) (err : option error) :
  StateAndHeaderByNumberOrHash blockNrOrHash = (None, header, err) ->
  Multicall args blockNrOrHash overrides = Some (None, err).
Proof.
  intros Hstate. unfold Multicall, DoMulticall. rewrite Hstate.
  cbn [mbind option_bind]. by destruct err.
Qed.

End WithWorld.

End EthAPIMore.

(** ** The same in concrete worlds *)

Module EthAPIMoreExamples.
Import EthAPI EthAPISpec EthAPIStops EthAPIWorlds EthAPIMore.

Lemma DoMulticall_first_stop_discards_results_witness :
  @StateAndHeaderByNumberOrHash strictWorld true = (Some 100, tt, None) /\
  @Apply strictWorld tt 100 = (100, None) /\
  @before strictWorld tt [5; 0; 7] 1%nat 100 (2 ^ 64 - 1)
  = Some (105, 2 ^ 64 - 1 - 21000) /\
  [5; 0; 7] !! 1%nat = Some 0 /\
  @stops strictWorld tt 0 105 (2 ^ 64 - 1 - 21000)
  = Some (ErrOpaque "invalid transaction") /\
  @DoMulticall strictWorld [5; 0; 7] true tt
  = Some (None, Some (ErrOpaque "invalid transaction")) /\
  @Multicall strictWorld [5; 0; 7] true tt
  = Some (None, Some (ErrOpaque "invalid transaction")).
Proof.
  assert (H1 : @StateAndHeaderByNumberOrHash strictWorld true
               = (Some 100, tt, None)) by reflexivity.
  assert (H2 : @Apply strictWorld tt 100 = (100, None)) by reflexivity.
  assert (H3 : @before strictWorld tt [5; 0; 7] 1%nat 100
                 (@newGasPool strictWorld)
               = Some (105, 2 ^ 64 - 1 - 21000)) by reflexivity.
  assert (H4 : [5; 0; 7] !! 1%nat = Some 0) by reflexivity.
  assert (H5 : @stops strictWorld tt 0 105 (2 ^ 64 - 1 - 21000)
               = Some (ErrOpaque "invalid transaction")) by reflexivity.
  split; [exact H1|]. split; [exact H2|]. split; [exact H3|].
  split; [exact H4|]. split; [exact H5|].
  exact (@DoMulticall_first_stop_discards_results strictWorld
           [5; 0; 7] true tt 100 100 105 tt 1%nat 0 _ _ H1 H2 H3 H4 H5).
Defined.

Lemma DoMulticall_panics_without_recipient_witness :
  @StateAndHeaderByNumberOrHash strictWorld true = (Some 100, tt, None) /\
  @Apply strictWorld tt 100 = (100, None) /\
  @before strictWorld tt [5; 42; 7] 1%nat 100 (2 ^ 64 - 1)
  = Some (105, 2 ^ 64 - 1 - 21000) /\
  [5; 42; 7] !! 1%nat = Some 42 /\
  @ToMessage strictWorld 42 tt = inl 42 /\
  @To strictWorld 42 = None /\
  @DoMulticall strictWorld [5; 42; 7] true tt = None /\
  @Multicall strictWorld [5; 42; 7] true tt = None.
Proof.
  assert (H1 : @StateAndHeaderByNumberOrHash strictWorld true
               = (Some 100, tt, None)) by reflexivity.
  assert (H2 : @Apply strictWorld tt 100 = (100, None)) by reflexivity.
  assert (H3 : @before strictWorld tt [5; 42; 7] 1%nat 100
                 (@newGasPool strictWorld)
               = Some (105, 2 ^ 64 - 1 - 21000)) by reflexivity.
  assert (H4 : [5; 42; 7] !! 1%nat = Some 42) by reflexivity.
  assert (H5 : @ToMessage strictWorld 42 tt = inl 42) by reflexivity.
  assert (H6 : @To strictWorld 42 = None) by reflexivity.
  split; [exact H1|]. split; [exact H2|]. split; [exact H3|].
  split; [exact H4|]. split; [exact H5|]. split; [exact H6|].
  exact (@DoMulticall_panics_without_recipient strictWorld
           [5; 42; 7] true tt 100 100 105 tt 1%nat 42 _ 42
           H1 H2 H3 H4 H5 H6).
Defined.

Lemma Multicall_error_nil_iff_no_failure_witness :
  exists results,
    @DoMulticall demoWorld [5; 7] tt tt = Some (Some results, None) /\
    exists e,
      @Multicall demoWorld [5; 7] tt tt = Some (Some results, e) /\
      (e = None <-> Forall (fun r => Err r = None) results).
Proof.
  eexists. split; [reflexivity|].
  exact (@Multicall_error_nil_iff_no_failure demoWorld [5; 7] tt tt _
           eq_refl).
Defined.

Lemma Multicall_error_names_single_failure_witness :
  let r1 := mkExecutionResultArgs (list Z) Z 21000 21000 [1] [-1] []
              (Some (ErrOpaque "execution reverted")) in
  let r2 := mkExecutionResultArgs (list Z) Z 21000 21000 [100] [5] []
              None in
  @DoMulticall demoWorld [-1; 5] tt tt = Some (Some ([] ++ r1 :: [r2]), None)
  /\ Forall (fun r' : @Result demoWorld => Err r' = None) []
  /\ Err r1 = Some (ErrOpaque "execution reverted")
  /\ Forall (fun r' => Err r' = None) [r2]
  /\ @Multicall demoWorld [-1; 5] tt tt
     = Some (Some [r1; r2],
             Some (ErrCallReverted 1
                     (ErrReason (ErrOpaque "execution reverted")
                        "insufficient balance"))).
Proof.
  intros r1 r2.
  assert (H1 : @DoMulticall demoWorld [-1; 5] tt tt
               = Some (Some ([] ++ r1 :: [r2]), None)) by reflexivity.
  assert (H2 : Err r1 = Some (ErrOpaque "execution reverted"))
    by reflexivity.
  assert (H3 : Forall (fun r' : @Result demoWorld => Err r' = None) [r2])
    by (repeat constructor).
  assert (H0 : Forall (fun r' : @Result demoWorld => Err r' = None) [])
    by constructor.
  split; [exact H1|]. split; [exact H0|]. split; [exact H2|].
  split; [exact H3|].
  exact (@Multicall_error_names_single_failure demoWorld [-1; 5] tt tt
           [] [r2] r1 _ H1 H0 H2 H3).
Defined.

Lemma Multicall_without_state_witness :
  @StateAndHeaderByNumberOrHash strictWorld false = (None, tt, None) /\
  @Multicall strictWorld [5; 7] false tt = Some (None, None).
Proof.
  assert (H : @StateAndHeaderByNumberOrHash strictWorld false
              = (None, tt, None)) by reflexivity.
  split; [exact H|].
  exact (@Multicall_without_state strictWorld [5; 7] false tt tt None H).
Defined.

End EthAPIMoreExamples.
